(** * tailscale-dns-sync: the reconciliation cycle of [main.go]

    A shallow embedding of [getName] and [sync] and of the two external
    collaborators they talk to (the tailscale status view and the
    cloudflare DNS client), followed by the properties of one
    reconciliation cycle. *)

From stdpp Require Import gmap strings pretty list fin_maps fin_sets.
From Stdlib Require Import Ascii String ZArith Lia.

Open Scope string_scope.
Open Scope list_scope.

(** ** Go strings

    A Go [string] is a sequence of bytes; it is embedded as a Rocq
    [string], one [ascii] per byte. *)

Module GoStrings.

(** The byte step of [strings.ToLower] on its ASCII path:
    ['A' <= c && c <= 'Z'] gives [c += 'a' - 'A'], every other byte is
    kept.  Bytes of 0x80 and above (for which Go consults its Unicode
    tables) are kept as they are. *)
Definition lower_byte (c : ascii) : ascii :=
  let n := N_of_ascii c in
  if ((65 <=? n) && (n <=? 90))%N then ascii_of_N (n + 32) else c.

Fixpoint ToLower (s : string) : string :=
  match s with
  | EmptyString => EmptyString
  | String c s' => String (lower_byte c) (ToLower s')
  end.

(** [strings.Split(s, sep)] for a one-byte separator: the substrings
    between the separators, always at least one (the whole of [s] when
    the separator does not occur, [""] for [s = ""]). *)
Fixpoint Split (s : string) (sep : ascii) : list string :=
  match s with
  | EmptyString => [EmptyString]
  | String c s' =>
      if Ascii.eqb c sep then EmptyString :: Split s' sep
      else match Split s' sep with
           | seg :: rest => String c seg :: rest
           | [] => [String c EmptyString]
           end
  end.

End GoStrings.

Import GoStrings.

(** ** [const] block of main.go *)

Definition CloudflareSyncDNSComment : string := "_tailscale".
Definition CloudflareDomainSuffix : string := ".int".

(** ** [getName] (main.go, lines 57-64) *)

Definition getName (name : string) : string :=
  let s := Split (ToLower name) "." in
  if (0 <? List.length s)%nat then nth 0 s "" else "".

(** The normalizer as the specification words it: the input's first
    dot-separated segment, lower-cased. *)
Fixpoint first_segment (s : string) : string :=
  match s with
  | EmptyString => EmptyString
  | String c s' => if Ascii.eqb c "." then EmptyString else String c (first_segment s')
  end.

Definition normalize_spec (name : string) : string := ToLower (first_segment name).

(** ** The mesh status view ([ipnstate.Status])

    [sync] looks at a [netip.Addr] only through [Is4()] and [String()];
    an address is embedded as the pair of these two observations. *)

Record Addr := { Is4 : bool; Addr_String : string }.

Record PeerStatus := { DNSName : string; TailscaleIPs : list Addr }.

(** The global [st], which [init] reads once and every cycle uses.
    [st.Peer] is a Go map ranged over by [sync]; [Peer] lists its values
    in the order the range statement of the cycle visits them. *)
Record Status := { Self : PeerStatus; Peer : list PeerStatus }.

(** ** The DNS provider ([cloudflare.API]) *)

Record DNSRecord := {
  ID : string;
  Type_ : string;
  Name : string;
  Content : string;
  Comment : string;
  TTL : Z
}.

Record ListDNSRecordsParams := {
  lp_Comment : string;
  lp_Page : Z;
  lp_PerPage : Z
}.

Inductive Call :=
| CallList (params : ListDNSRecordsParams)
| CallCreate (params : DNSRecord)
| CallDelete (recordID : string).

Inductive Result (A : Type) :=
| Ok (a : A)
| Error.
Arguments Ok {A} a.
Arguments Error {A}.

#[global] Instance DNSRecord_eq_dec : EqDecision DNSRecord.
Proof. solve_decision. Defined.
#[global] Instance ListDNSRecordsParams_eq_dec : EqDecision ListDNSRecordsParams.
Proof. solve_decision. Defined.
#[global] Instance Call_eq_dec : EqDecision Call.
Proof. solve_decision. Defined.

(** The zone behind the client handle [api]: its records in the order
    the provider lists them, and which calls of the cycle the provider
    fails. *)
Record API := {
  zone : list DNSRecord;
  list_fails : bool;
  create_fails : DNSRecord -> bool;
  delete_fails : string -> bool
}.

Definition set_zone (z : list DNSRecord) (api : API) : API :=
  {| zone := z; list_fails := list_fails api;
     create_fails := create_fails api; delete_fails := delete_fails api |}.

(** A computation against the provider: a value, the provider after it
    and the calls issued, in order. *)
Record Run (A : Type) := mkRun { value : A; after : API; trace : list Call }.
Arguments mkRun {A} value after trace.
Arguments value {A} r.
Arguments after {A} r.
Arguments trace {A} r.

Definition M (A : Type) : Type := API -> Run A.

Definition ret {A} (a : A) : M A := fun api => mkRun a api [].

Definition bind {A B} (m : M A) (k : A -> M B) : M B := fun api =>
  let r1 := m api in
  let r2 := k (value r1) (after r1) in
  mkRun (value r2) (after r2) (trace r1 ++ trace r2).

Notation "x <- m ;; k" := (bind m (fun x => k))
  (at level 100, m at next level, right associativity).

(** [for _, x := range l { body x }] *)
Fixpoint for_range {A} (l : list A) (body : A -> M unit) : M unit :=
  match l with
  | [] => ret tt
  | x :: l' => _ <- body x ;; for_range l' body
  end.

Module Cloudflare.

Definition listDNSRecordsDefaultPageSize : Z := 100.

(** The [comment] query parameter is left out when empty
    ([omitempty]) and otherwise selects the records whose comment is
    exactly that value. *)
Definition comment_matches (c : string) (r : DNSRecord) : Prop :=
  c = "" ∨ Comment r = c.

#[global] Instance comment_matches_dec c r : Decision (comment_matches c r).
Proof. unfold comment_matches. apply _. Defined.

(** Page [page] (counted from 1) of [l], [perPage] records a page. *)
Definition page_of (page perPage : Z) (l : list DNSRecord) : list DNSRecord :=
  take (Z.to_nat perPage) (drop (Z.to_nat ((page - 1) * perPage)) l).

(** [api.ListDNSRecords] of cloudflare-go: the client follows the
    result pages on its own ([autoPaginate]) only when the caller sets
    neither [Page] nor [PerPage]; with either set it asks for that one
    page and returns it.  One answer stands for the whole call: it
    either fails or returns the records. *)
Definition ListDNSRecords (params : ListDNSRecordsParams)
  : M (Result (list DNSRecord)) := fun api =>
  if list_fails api then mkRun Error api [CallList params]
  else
    let autoPaginate := negb ((1 <=? lp_PerPage params) || (1 <=? lp_Page params))%Z in
    let perPage := if (lp_PerPage params <? 1)%Z
                   then listDNSRecordsDefaultPageSize else lp_PerPage params in
    let page := if (lp_Page params <? 1)%Z then 1%Z else lp_Page params in
    let matching := filter (comment_matches (lp_Comment params)) (zone api) in
    let records := if autoPaginate then matching else page_of page perPage matching in
    mkRun (Ok records) api [CallList params].

(** [api.CreateDNSRecord]: the provider stores the record under an
    identifier no record of the zone has. *)
Definition CreateDNSRecord (params : DNSRecord) : M (Result DNSRecord) := fun api =>
  if create_fails api params then mkRun Error api [CallCreate params]
  else
    let r := {| ID := fresh (ID <$> zone api); Type_ := Type_ params;
                Name := Name params; Content := Content params;
                Comment := Comment params; TTL := TTL params |} in
    mkRun (Ok r) (set_zone (zone api ++ [r]) api) [CallCreate params].

(** [api.DeleteDNSRecord]: an empty identifier and an identifier no
    record has are errors. *)
Definition DeleteDNSRecord (recordID : string) : M (Result unit) := fun api =>
  if String.eqb recordID ""
     || delete_fails api recordID
     || negb (bool_decide (recordID ∈ ID <$> zone api))
  then mkRun Error api [CallDelete recordID]
  else mkRun (Ok tt)
             (set_zone (filter (λ r, ID r ≠ recordID) (zone api)) api)
             [CallDelete recordID].

End Cloudflare.

(** ** [mapset.Set[string]] *)

Definition SymmetricDifference (s other : gset string) : gset string :=
  (s ∖ other) ∪ (other ∖ s).

(** ** [sync] (main.go, lines 66-158) *)

(** Lines 80-84 and 93-97: every IPv4 address of the entry is assigned
    to [tsMap[name]] in turn. *)
Definition add_ips (name : string) (ips : list Addr) (tsMap : gmap string string)
  : gmap string string :=
  foldl (fun m ip => if Is4 ip then <[name := Addr_String ip]> m else m) tsMap ips.

(** Lines 76-85 for the self entry, 89-98 for a peer. *)
Definition add_entry (acc : gset string * gmap string string) (ps : PeerStatus)
  : gset string * gmap string string :=
  let name := getName (DNSName ps) in
  if decide (name ≠ "") then (acc.1 ∪ {[name]}, add_ips name (TailscaleIPs ps) acc.2)
  else acc.

(** The mesh entries in the order [sync] visits them. *)
Definition entries (st : Status) : list PeerStatus := Self st :: Peer st.

(** Lines 69-70 and 74-99: the pair [(ts, tsMap)]. *)
Definition mesh_snapshot (st : Status) : gset string * gmap string string :=
  foldl add_entry (add_entry (∅, ∅) (Self st)) (Peer st).

(** [ts] and [tsMap] as the cycle has them at line 100. *)
Definition mesh_names (st : Status) : gset string := (mesh_snapshot st).1.
Definition mesh_addrs (st : Status) : gmap string string := (mesh_snapshot st).2.

(** Lines 111-117: the pair [(cf, cfMap)]. *)
Definition add_record (acc : gset string * gmap string string) (r : DNSRecord)
  : gset string * gmap string string :=
  let name := getName (Name r) in
  if decide (name ≠ "") then (acc.1 ∪ {[getName (Name r)]}, <[name := ID r]> acc.2)
  else acc.

Definition managed_snapshot (records : list DNSRecord) : gset string * gmap string string :=
  foldl add_record (∅, ∅) records.

(** [cf] and [cfMap] as the cycle has them at line 118. *)
Definition managed_names (records : list DNSRecord) : gset string :=
  (managed_snapshot records).1.
Definition managed_ids (records : list DNSRecord) : gmap string string :=
  (managed_snapshot records).2.

(** The parameters of the listing call, lines 100-106. *)
Definition list_params : ListDNSRecordsParams :=
  {| lp_Comment := CloudflareSyncDNSComment; lp_Page := 0; lp_PerPage := 1000 |}.

(** The record of lines 130-136. *)
Definition new_record (name ip : string) : DNSRecord :=
  {| ID := ""; Type_ := "A"; Name := name ++ CloudflareDomainSuffix;
     Content := ip; Comment := CloudflareSyncDNSComment; TTL := 1 |}.

Inductive Outcome :=
| ListFailed        (* line 109 *)
| NoHostNeedSync    (* line 121 *)
| SyncEnd.          (* line 157 *)

Section Sync.

(** [ToSlice] returns the elements of a set in the order of a Go map
    range, which the language leaves open. *)
Variable ToSlice : gset string -> list string.

(** Lines 124-142; [false] is [continue], [true] falls through to
    line 143. *)
Definition create_branch (ts : gset string) (tsMap : gmap string string)
    (name : string) : M bool :=
  if decide (name ∈ ts) then
    match tsMap !! name with
    | None => ret false
    | Some ip =>
        r <- Cloudflare.CreateDNSRecord (new_record name ip) ;;
        match r with
        | Error => ret false
        | Ok _ => ret true
        end
    end
  else ret true.

(** Lines 143-155. *)
Definition delete_branch (cf : gset string) (cfMap : gmap string string)
    (name : string) : M unit :=
  if decide (name ∈ cf) then
    match cfMap !! name with
    | None => ret tt
    | Some recordID =>
        _ <- Cloudflare.DeleteDNSRecord recordID ;; ret tt
    end
  else ret tt.

(** The body of the loop of line 123. *)
Definition sync_name (ts cf : gset string) (tsMap cfMap : gmap string string)
    (name : string) : M unit :=
  through <- create_branch ts tsMap name ;;
  if through : bool then delete_branch cf cfMap name else ret tt.

Definition sync (st : Status) : M Outcome :=
  let ts := mesh_names st in
  let tsMap := mesh_addrs st in
  res <- Cloudflare.ListDNSRecords list_params ;;
  match res with
  | Error => ret ListFailed
  | Ok records =>
      let cf := managed_names records in
      let cfMap := managed_ids records in
      let needToSync := ToSlice (SymmetricDifference ts cf) in
      if (List.length needToSync =? 0)%nat then ret NoHostNeedSync
      else
        _ <- for_range (ToSlice (SymmetricDifference ts cf))
                       (sync_name ts cf tsMap cfMap) ;;
        ret SyncEnd
  end.

End Sync.

(** ** Vocabulary of the statements *)

(** The IPv4 addresses of an entry, printed, in the order of its
    address list. *)
Definition ipv4_strings (ips : list Addr) : list string :=
  Addr_String <$> filter (λ ip, Is4 ip) ips.

(** The IPv4 addresses of the entries that normalize to [n], in the
    order [sync] meets them. *)
Definition addresses_of (n : string) (l : list PeerStatus) : list string :=
  l ≫= (λ ps, if decide (getName (DNSName ps) = n)
              then ipv4_strings (TailscaleIPs ps) else []).

Definition or_else {A} (o1 o2 : option A) : option A :=
  match o1 with Some a => Some a | None => o2 end.

(** ** Sample inputs *)

Definition v4 (s : string) : Addr := {| Is4 := true; Addr_String := s |}.
Definition v6 (s : string) : Addr := {| Is4 := false; Addr_String := s |}.

Definition entry (dnsName : string) (ips : list Addr) : PeerStatus :=
  {| DNSName := dnsName; TailscaleIPs := ips |}.

(** One node with two IPv4 addresses. *)
Definition st_two_ipv4 : Status :=
  {| Self := entry "Host.tail.ts.net." [v4 "100.64.0.1"; v6 "fd7a::1"; v4 "100.64.0.2"];
     Peer := [] |}.

(** Two nodes that normalize to the same name; the one met later has
    no IPv4 address. *)
Definition st_same_name : Status :=
  {| Self := entry "a.tail.ts.net." [v4 "100.64.0.1"];
     Peer := [entry "A.other.ts.net." [v6 "fd7a::2"]] |}.

(** Two nodes that normalize to the same name, both with an IPv4
    address. *)
Definition st_same_name_v4 : Status :=
  {| Self := entry "a.tail.ts.net." [v4 "100.64.0.1"];
     Peer := [entry "A.other.ts.net." [v6 "fd7a::2"; v4 "100.64.0.2"]] |}.

(** The records the listing call of one cycle returns when it succeeds:
    the first page, of 1000 records, of the zone's records that carry
    the management comment. *)
Definition annotated (r : DNSRecord) : Prop :=
  Cloudflare.comment_matches CloudflareSyncDNSComment r.

#[global] Instance annotated_dec r : Decision (annotated r).
Proof. unfold annotated. apply _. Defined.

Definition listed (api : API) : list DNSRecord :=
  take 1000 (filter annotated (zone api)).

(** Lines 100-117 on their own: the managed directory of a cycle, if the
    listing succeeds. *)
Definition managed_directory (api : API) : option (gset string * gmap string string) :=
  match value (Cloudflare.ListDNSRecords list_params api) with
  | Ok records => Some (managed_snapshot records)
  | Error => None
  end.

(** The identifiers of the records that normalize to [n], in listing
    order. *)
Definition ids_of (n : string) (records : list DNSRecord) : list string :=
  ID <$> filter (λ r, getName (Name r) = n) records.

(** The set the loop of line 123 ranges over. *)
Definition ReconciliationSet (st : Status) (api : API) : gset string :=
  SymmetricDifference (mesh_names st) (managed_names (listed api)).

(** The call one name of the reconciliation set gives rise to. *)
Definition calls_for (ts cf : gset string) (tsMap cfMap : gmap string string)
    (name : string) : list Call :=
  if decide (name ∈ ts) then
    match tsMap !! name with
    | Some ip => [CallCreate (new_record name ip)]
    | None => []
    end
  else if decide (name ∈ cf) then
    match cfMap !! name with
    | Some recordID => [CallDelete recordID]
    | None => []
    end
  else [].

(** The create calls and the delete calls of a trace. *)
Definition creates (t : list Call) : list DNSRecord :=
  omap (λ c, match c with CallCreate p => Some p | _ => None end) t.

Definition deletes (t : list Call) : list string :=
  omap (λ c, match c with CallDelete recordID => Some recordID | _ => None end) t.

(** Two managed records [b] and [c]; the mesh knows [a] and [b]. *)
Definition managed_record (recordID name : string) : DNSRecord :=
  {| ID := recordID; Type_ := "A"; Name := name; Content := "100.64.0.9";
     Comment := CloudflareSyncDNSComment; TTL := 1 |}.

Definition st_ab : Status :=
  {| Self := entry "A.tail.ts.net." [v4 "100.64.0.1"; v6 "fd7a::1"];
     Peer := [entry "b.tail.ts.net." [v6 "fd7a::2"; v4 "100.64.0.2"]] |}.

Definition zone_bc : list DNSRecord :=
  [managed_record "id-b" "b.int.example.com"; managed_record "id-c" "c.int.example.com"].

Definition api_bc : API :=
  {| zone := zone_bc; list_fails := false;
     create_fails := λ _, false; delete_fails := λ _, false |}.

(** The same zone behind a provider whose listing call fails. *)
Definition api_list_down : API :=
  {| zone := zone_bc; list_fails := true;
     create_fails := λ _, false; delete_fails := λ _, false |}.

(** The same zone behind a provider that fails every create call. *)
Definition api_create_down : API :=
  {| zone := zone_bc; list_fails := false;
     create_fails := λ _, true; delete_fails := λ _, false |}.

(** A zone already in sync with [st_ab]. *)
Definition api_ab : API :=
  {| zone := [managed_record "id-a" "a.int.example.com";
              managed_record "id-b" "b.int.example.com"];
     list_fails := false;
     create_fails := λ _, false; delete_fails := λ _, false |}.

(** A mesh with a node [x] that has no IPv4 address. *)
Definition st_x : Status :=
  {| Self := entry "b.tail.ts.net." [v4 "100.64.0.2"];
     Peer := [entry "x.tail.ts.net." [v6 "fd7a::7"]] |}.

Definition api_empty : API :=
  {| zone := []; list_fails := false;
     create_fails := λ _, false; delete_fails := λ _, false |}.

(** A zone with 1001 managed records [h0] .. [h1000], one more than a
    result page holds. *)
Definition zone_1001 : list DNSRecord :=
  (λ i : nat, managed_record ("id-" ++ pretty i) ("h" ++ pretty i ++ ".int.example.com"))
    <$> seq 0 1001.

Definition api_1001 : API :=
  {| zone := zone_1001; list_fails := false;
     create_fails := λ _, false; delete_fails := λ _, false |}.

(** Whether a name is a key of a directory's name set. *)
Definition has_name (n : string) (d : gset string * gmap string string) : bool :=
  bool_decide (n ∈ d.1).

(** The managed names a complete listing of the zone [z] would give. *)
Definition names_of (z : list DNSRecord) : gset string :=
  managed_names (filter annotated z).

(** The state of the provider inside the loop of line 123, after the
    names [seen] of the reconciliation set of the cycle started from
    [api0]: no call fails; records are told apart by their identifiers
    and managed records by their normalized names; the records [cfMap]
    points to for names still to come are in the zone; and the managed
    names are those of the start without the names handled by a delete,
    with the names handled by a create. *)
Record CycleInv (st : Status) (api0 : API) (seen : list string) (api : API) : Prop := {
  inv_list : list_fails api = false;
  inv_create : ∀ p, create_fails api p = false;
  inv_delete : ∀ recordID, delete_fails api recordID = false;
  inv_ids : ∀ r1 r2, r1 ∈ zone api → r2 ∈ zone api → ID r1 = ID r2 → r1 = r2;
  inv_names : ∀ r1 r2, r1 ∈ zone api → r2 ∈ zone api → annotated r1 → annotated r2 →
                getName (Name r1) = getName (Name r2) → r1 = r2;
  inv_present : ∀ n recordID,
      n ∈ managed_names (listed api0) → n ∉ seen →
      managed_ids (listed api0) !! n = Some recordID →
      ∃ r, r ∈ zone api ∧ annotated r ∧ getName (Name r) = n ∧ ID r = recordID;
  inv_keys : names_of (zone api)
             = (managed_names (listed api0) ∖ (list_to_set seen ∖ mesh_names st))
               ∪ (list_to_set seen ∩ mesh_names st);
  inv_length : (List.length (filter annotated (zone api))
                ≤ List.length (filter annotated (zone api0))
                  + List.length (filter (λ n, n ∈ mesh_names st) seen))%nat
}.

(** Two managed records that normalize to the same name [c]. *)
Definition api_cc : API :=
  {| zone := [managed_record "id-1" "c.int.example.com";
              managed_record "id-2" "c.lan.example.com"];
     list_fails := false;
     create_fails := λ _, false; delete_fails := λ _, false |}.

(** [st_same_name] with another address for the node met first. *)
Definition st_same_name_moved : Status :=
  {| Self := entry "a.tail.ts.net." [v4 "100.64.0.9"];
     Peer := [entry "A.other.ts.net." [v6 "fd7a::2"]] |}.

(** ** [main] (main.go, lines 160-174)

    The loop blocks in [select]; an [Event] is the case the statement
    takes: [Tick] for [<-ticker.C] (line 166), [Cancelled] for
    [<-ctx.Done()] (line 169).  [main] runs through the events in the
    order [select] takes them. *)

Inductive Event :=
| Tick
| Cancelled.

Inductive Exit :=
| Stopped    (* line 171: main returned *)
| Waiting.   (* still blocked in the select of line 165 *)

Section Main.

Variable ToSlice : gset string -> list string.

Fixpoint main (st : Status) (events : list Event) : M Exit :=
  match events with
  | [] => ret Waiting
  | Tick :: events' => _ <- sync ToSlice st ;; main st events'
  | Cancelled :: _ => ret Stopped
  end.

End Main.



(** A zone with a record that is not managed, a managed record of the
    mesh name [b] with an outdated address, and a managed record [c]. *)
Definition www_record : DNSRecord :=
  {| ID := "id-www"; Type_ := "A"; Name := "www.example.com";
     Content := "203.0.113.7"; Comment := ""; TTL := 300 |}.

Definition api_mixed : API :=
  {| zone := [www_record; managed_record "id-b" "b.int.example.com";
              managed_record "id-c" "c.int.example.com"];
     list_fails := false;
     create_fails := λ _, false; delete_fails := λ _, false |}.

(** The record the provider stores for the mesh name [a] of [st_ab] in
    [api_mixed]. *)
Definition created_a : DNSRecord :=
  {| ID := "0"; Type_ := "A"; Name := "a.int"; Content := "100.64.0.1";
     Comment := CloudflareSyncDNSComment; TTL := 1 |}.

(** A node [x] without IPv4 address and a second node that normalizes
    to the same name and has one. *)
Definition st_xx : Status :=
  {| Self := entry "x.tail.ts.net." [v6 "fd7a::7"];
     Peer := [entry "X.other.ts.net." [v4 "100.64.0.5"]] |}.

(** * Properties *)

(** ** The name normalizer *)

Lemma lower_byte_dot (c : ascii) : Ascii.eqb (lower_byte c) "." = Ascii.eqb c ".".
Proof.
  destruct c as [[] [] [] [] [] [] [] []]; vm_compute; reflexivity.
Qed.

Lemma Split_not_nil (s : string) (sep : ascii) : Split s sep ≠ [].
Proof.
  destruct s as [|c s]; simpl; [done|].
  destruct (Ascii.eqb c sep); [done|]. by destruct (Split s sep).
Qed.

Lemma Split_length_pos (s : string) (sep : ascii) : (0 < List.length (Split s sep))%nat.
Proof.
  pose proof (Split_not_nil s sep). destruct (Split s sep); simpl; [done|lia].
Qed.

Lemma Split_ToLower_head (s : string) :
  nth 0 (Split (ToLower s) ".") "" = ToLower (first_segment s).
Proof.
  induction s as [|c s IH]; simpl; [done|].
  rewrite lower_byte_dot. destruct (Ascii.eqb c "."); [done|].
  pose proof (Split_not_nil (ToLower s) ".") as Hne.
  destruct (Split (ToLower s) ".") as [|seg rest]; [done|].
  simpl in *. by rewrite IH.
Qed.

Lemma getName_first (name : string) :
  getName name = nth 0 (Split (ToLower name) ".") "".
Proof.
  unfold getName. pose proof (Split_length_pos (ToLower name) ".") as Hpos.
  apply Nat.ltb_lt in Hpos. by rewrite Hpos.
Qed.

Lemma getName_spec (name : string) : getName name = normalize_spec name.
Proof. rewrite getName_first. apply Split_ToLower_head. Qed.

(** C9. For every input string [getName] returns the lower-cased first
    dot-separated segment of the input (it has no failing path: it is a
    total function, and [strings.Split] always yields a segment), and in
    particular maps ["Host.Sub.int"] to ["host"], [""] to [""] and ["."]
    to [""]. *)
Theorem getName_normalize :
  (∀ name : string, getName name = normalize_spec name) ∧
  getName "Host.Sub.int" = "host" ∧
  getName "" = "" ∧
  getName "." = "".
Proof.
  split; [|by vm_compute].
  intros name. apply getName_spec.
Qed.

Lemma first_segment_app_dot (a r : string) :
  first_segment (a ++ String "." r) = first_segment a.
Proof.
  induction a as [|c a IH]; simpl; [done|].
  destruct (Ascii.eqb c "."); [done|]. by rewrite IH.
Qed.

(** A record name made of a name and the domain suffix normalizes like
    the name alone, whatever the provider appends to it. *)
Lemma getName_suffix (name rest : string) :
  getName (name ++ CloudflareDomainSuffix ++ rest) = getName name.
Proof.
  rewrite !getName_spec. unfold normalize_spec.
  change (CloudflareDomainSuffix ++ rest)%string with (String "." ("int" ++ rest))%string.
  by rewrite first_segment_app_dot.
Qed.

Lemma lower_byte_idemp (c : ascii) : lower_byte (lower_byte c) = lower_byte c.
Proof.
  destruct c as [[] [] [] [] [] [] [] []]; vm_compute; reflexivity.
Qed.

Lemma ToLower_idemp (s : string) : ToLower (ToLower s) = ToLower s.
Proof.
  induction s as [|c s IH]; simpl; [done|]. by rewrite lower_byte_idemp, IH.
Qed.

Lemma first_segment_ToLower (s : string) :
  first_segment (ToLower s) = ToLower (first_segment s).
Proof.
  induction s as [|c s IH]; simpl; [done|].
  rewrite lower_byte_dot. destruct (Ascii.eqb c "."); [done|].
  simpl. by rewrite IH.
Qed.

Lemma first_segment_idemp (s : string) :
  first_segment (first_segment s) = first_segment s.
Proof.
  induction s as [|c s IH]; simpl; [done|].
  destruct (Ascii.eqb c ".") eqn:E; [done|]. simpl. by rewrite E, IH.
Qed.

Lemma getName_idemp (s : string) : getName (getName s) = getName s.
Proof.
  rewrite !getName_spec. unfold normalize_spec.
  by rewrite first_segment_ToLower, first_segment_idemp, ToLower_idemp.
Qed.

(** ** The mesh snapshot *)

Lemma or_else_last_app {A} (l1 l2 : list A) (o : option A) :
  or_else (last (l1 ++ l2)) o = or_else (last l2) (or_else (last l1) o).
Proof. rewrite last_app. by destruct (last l2). Qed.

Lemma or_else_last_cons {A} (x : A) (l : list A) (o : option A) :
  or_else (last (x :: l)) o = or_else (last l) (Some x).
Proof. apply (or_else_last_app [x] l o). Qed.

Lemma add_ips_lookup (n : string) (ips : list Addr) (m : gmap string string) (k : string) :
  add_ips n ips m !! k =
    if decide (k = n) then or_else (last (ipv4_strings ips)) (m !! k) else m !! k.
Proof.
  unfold add_ips, ipv4_strings. revert m.
  induction ips as [|ip ips IH]; intros m; simpl.
  - by destruct (decide (k = n)).
  - rewrite IH. rewrite filter_cons.
    destruct (decide (k = n)) as [->|Hne].
    + destruct (decide (Is4 ip)) as [H4|H4].
      * apply Is_true_true in H4. rewrite H4. rewrite fmap_cons.
        rewrite or_else_last_cons. by rewrite lookup_insert_eq.
      * apply Is_true_false in H4. by rewrite H4.
    + destruct (Is4 ip); [|done]. by rewrite lookup_insert_ne.
Qed.

Lemma add_entry_names (acc : gset string * gmap string string) (ps : PeerStatus) (n : string) :
  n ∈ (add_entry acc ps).1 ↔ n ∈ acc.1 ∨ (n ≠ "" ∧ getName (DNSName ps) = n).
Proof.
  unfold add_entry. destruct (decide (getName (DNSName ps) ≠ "")) as [Hne|He]; simpl.
  - rewrite elem_of_union, elem_of_singleton. naive_solver.
  - apply dec_stable in He. naive_solver.
Qed.

Lemma add_entry_addrs (acc : gset string * gmap string string) (ps : PeerStatus) (n : string) :
  n ≠ "" →
  (add_entry acc ps).2 !! n = or_else (last (addresses_of n [ps])) (acc.2 !! n).
Proof.
  intros Hn. unfold add_entry, addresses_of. simpl. rewrite app_nil_r.
  destruct (decide (getName (DNSName ps) ≠ "")) as [Hne|He]; simpl.
  - rewrite add_ips_lookup.
    destruct (decide (n = getName (DNSName ps))) as [->|Hx].
    + by rewrite decide_True.
    + by rewrite decide_False.
  - apply dec_stable in He. rewrite decide_False; [done|congruence].
Qed.

Lemma fold_entries_names (l : list PeerStatus) (acc : gset string * gmap string string) (n : string) :
  n ∈ (foldl add_entry acc l).1 ↔
  n ∈ acc.1 ∨ (n ≠ "" ∧ ∃ ps, ps ∈ l ∧ getName (DNSName ps) = n).
Proof.
  revert acc. induction l as [|ps l IH]; intros acc; simpl.
  - split; [auto|]. intros [?|(_ & ps & Hin & _)]; [done|]. by apply elem_of_nil in Hin.
  - rewrite IH, add_entry_names. setoid_rewrite elem_of_cons. naive_solver.
Qed.

Lemma fold_entries_addrs (l : list PeerStatus) (acc : gset string * gmap string string) (n : string) :
  n ≠ "" →
  (foldl add_entry acc l).2 !! n = or_else (last (addresses_of n l)) (acc.2 !! n).
Proof.
  intros Hn. revert acc. induction l as [|ps l IH]; intros acc; [done|].
  cbn [foldl]. rewrite IH, add_entry_addrs by done.
  replace (addresses_of n (ps :: l)) with (addresses_of n [ps] ++ addresses_of n l).
  - by rewrite or_else_last_app.
  - unfold addresses_of. simpl. by rewrite app_nil_r.
Qed.

Lemma mesh_snapshot_entries (st : Status) :
  mesh_snapshot st = foldl add_entry (∅, ∅) (entries st).
Proof. reflexivity. Qed.

(** [ts] holds the nonempty normalized names of the entries. *)
Lemma elem_of_mesh_names (st : Status) (n : string) :
  n ∈ mesh_names st ↔ n ≠ "" ∧ ∃ ps, ps ∈ entries st ∧ getName (DNSName ps) = n.
Proof.
  unfold mesh_names. rewrite mesh_snapshot_entries, fold_entries_names. simpl.
  rewrite elem_of_empty. naive_solver.
Qed.

(** [tsMap] holds, for a name, the last IPv4 address assigned to it. *)
Lemma mesh_addrs_lookup (st : Status) (n : string) :
  n ≠ "" → mesh_addrs st !! n = last (addresses_of n (entries st)).
Proof.
  intros Hn. unfold mesh_addrs. rewrite mesh_snapshot_entries, fold_entries_addrs by done.
  simpl. rewrite lookup_empty. by destruct (last _).
Qed.

(** C5 (as stated): the first IPv4 address of an entry is recorded for
    its name.  It fails on a node with two IPv4 addresses: the loop of
    lines 80-84 has no [break], so the last one stays in [tsMap]. *)
Lemma first_ipv4_recorded_fails :
  ¬ (∀ (st : Status) (ps : PeerStatus) (ip : string),
       ps ∈ entries st →
       getName (DNSName ps) ≠ "" →
       head (ipv4_strings (TailscaleIPs ps)) = Some ip →
       mesh_addrs st !! getName (DNSName ps) = Some ip).
Proof.
  intros H.
  specialize (H st_two_ipv4 (Self st_two_ipv4) "100.64.0.1").
  assert (mesh_addrs st_two_ipv4 !! getName (DNSName (Self st_two_ipv4))
          = Some "100.64.0.2") as Hlast by (by vm_compute).
  rewrite H in Hlast; [discriminate| |by vm_compute|by vm_compute].
  apply elem_of_cons. by left.
Qed.

(** C5 (amended). For every mesh entry whose normalized name is nonempty
    and whose address list holds an IPv4 address, when no entry met
    later under the same name holds an IPv4 address, the name is in the
    mesh name set and [tsMap] maps it to the LAST IPv4 address of the
    entry's address list. *)
Theorem mesh_snapshot_last_ipv4 (st : Status) (pre post : list PeerStatus)
    (ps : PeerStatus) (ip : string) :
  entries st = pre ++ ps :: post →
  getName (DNSName ps) ≠ "" →
  last (ipv4_strings (TailscaleIPs ps)) = Some ip →
  addresses_of (getName (DNSName ps)) post = [] →
  getName (DNSName ps) ∈ mesh_names st ∧
  mesh_addrs st !! getName (DNSName ps) = Some ip.
Proof.
  intros Hst Hname Hlast Hpost. split.
  - apply elem_of_mesh_names. split; [done|]. exists ps. split; [|done].
    rewrite Hst. apply elem_of_app. right. apply elem_of_cons. by left.
  - rewrite mesh_addrs_lookup by done. rewrite Hst.
    unfold addresses_of in *. rewrite bind_app, bind_cons, Hpost, app_nil_r.
    rewrite decide_True by done. rewrite last_app, Hlast. done.
Qed.

Lemma mesh_snapshot_last_ipv4_witness :
  getName (DNSName (Self st_two_ipv4)) ∈ mesh_names st_two_ipv4 ∧
  mesh_addrs st_two_ipv4 !! getName (DNSName (Self st_two_ipv4)) = Some "100.64.0.2".
Proof.
  apply (mesh_snapshot_last_ipv4 st_two_ipv4 [] [] (Self st_two_ipv4) "100.64.0.2").
  - reflexivity.
  - vm_compute. discriminate.
  - reflexivity.
  - reflexivity.
Defined.

(** C8 (as stated): of two entries with the same nonempty normalized
    name the later one determines the mapping.  It fails when the later
    entry has no IPv4 address: nothing is assigned for it and the address
    of the earlier entry stays in [tsMap]. *)
Lemma later_entry_overwrites_fails :
  ¬ (∀ (st : Status) (l1 l2 l3 : list PeerStatus) (e1 e2 : PeerStatus) (n : string),
       entries st = l1 ++ e1 :: l2 ++ e2 :: l3 →
       getName (DNSName e1) = n → getName (DNSName e2) = n → n ≠ "" →
       mesh_addrs st !! n = head (ipv4_strings (TailscaleIPs e2))).
Proof.
  intros H.
  specialize (H st_same_name [] [] [] (Self st_same_name)
                (entry "A.other.ts.net." [v6 "fd7a::2"]) "a").
  assert (mesh_addrs st_same_name !! "a" = Some "100.64.0.1") as Hkept by (by vm_compute).
  rewrite H in Hkept; [discriminate|by vm_compute ..].
Qed.

(** C8 (amended). For every pair of mesh entries met in order that
    normalize to the same nonempty name, when no entry met after the
    later one holds an IPv4 address for that name: if the later entry
    holds an IPv4 address, [tsMap] maps the name to the later entry's
    (last) IPv4 address; if it holds none, the mapping built from the
    entries met before it is kept. *)
Theorem later_entry_overwrites (st : Status) (l1 l2 l3 : list PeerStatus)
    (e1 e2 : PeerStatus) (n : string) :
  entries st = l1 ++ e1 :: l2 ++ e2 :: l3 →
  getName (DNSName e1) = n → getName (DNSName e2) = n → n ≠ "" →
  addresses_of n l3 = [] →
  mesh_addrs st !! n =
    match last (ipv4_strings (TailscaleIPs e2)) with
    | Some ip => Some ip
    | None => last (addresses_of n (l1 ++ e1 :: l2))
    end.
Proof.
  intros Hst _ He2 Hn Hl3.
  rewrite mesh_addrs_lookup by done. rewrite Hst.
  replace (l1 ++ e1 :: l2 ++ e2 :: l3) with ((l1 ++ e1 :: l2) ++ e2 :: l3)
    by (by rewrite <- app_assoc).
  unfold addresses_of in *. rewrite (bind_app _ (l1 ++ e1 :: l2)), bind_cons.
  rewrite Hl3, app_nil_r, decide_True by done.
  by rewrite last_app.
Qed.

Lemma later_entry_overwrites_witness :
  mesh_addrs st_same_name_v4 !! "a" = Some "100.64.0.2".
Proof.
  apply (later_entry_overwrites st_same_name_v4 [] [] []
           (Self st_same_name_v4)
           (entry "A.other.ts.net." [v6 "fd7a::2"; v4 "100.64.0.2"]) "a").
  - reflexivity.
  - reflexivity.
  - reflexivity.
  - discriminate.
  - reflexivity.
Defined.

(** ** What the later of two entries does not decide *)

(** Whatever address one derives from the later entry alone, it is not
    always the one [tsMap] holds: with a later entry that has no IPv4
    address, [tsMap] follows the earlier entry. *)
Lemma mapping_not_decided_by_later_entry :
  ¬ (∃ derived : PeerStatus → option string,
       ∀ (st : Status) (e1 e2 : PeerStatus) (n : string),
         entries st = [e1; e2] →
         getName (DNSName e1) = n → getName (DNSName e2) = n → n ≠ "" →
         mesh_addrs st !! n = derived e2).
Proof.
  intros [derived H].
  pose proof (H st_same_name (Self st_same_name)
                (entry "A.other.ts.net." [v6 "fd7a::2"]) "a"
                eq_refl eq_refl eq_refl) as H1.
  pose proof (H st_same_name_moved (Self st_same_name_moved)
                (entry "A.other.ts.net." [v6 "fd7a::2"]) "a"
                eq_refl eq_refl eq_refl) as H2.
  assert (mesh_addrs st_same_name !! "a" = Some "100.64.0.1") as V1 by (by vm_compute).
  assert (mesh_addrs st_same_name_moved !! "a" = Some "100.64.0.9") as V2 by (by vm_compute).
  rewrite H1 in V1 by discriminate. rewrite H2 in V2 by discriminate.
  congruence.
Qed.

(** ** The managed-record snapshot *)

Lemma add_record_names (acc : gset string * gmap string string) (r : DNSRecord) (n : string) :
  n ∈ (add_record acc r).1 ↔ n ∈ acc.1 ∨ (n ≠ "" ∧ getName (Name r) = n).
Proof.
  unfold add_record. destruct (decide (getName (Name r) ≠ "")) as [Hne|He]; simpl.
  - rewrite elem_of_union, elem_of_singleton. naive_solver.
  - apply dec_stable in He. naive_solver.
Qed.

Lemma add_record_ids (acc : gset string * gmap string string) (r : DNSRecord) (n : string) :
  n ≠ "" →
  (add_record acc r).2 !! n = or_else (last (ids_of n [r])) (acc.2 !! n).
Proof.
  intros Hn. unfold add_record, ids_of. rewrite filter_cons, filter_nil.
  destruct (decide (getName (Name r) ≠ "")) as [Hne|He]; simpl.
  - destruct (decide (getName (Name r) = n)) as [<-|Hx]; simpl.
    + by rewrite lookup_insert_eq.
    + by rewrite lookup_insert_ne.
  - apply dec_stable in He. rewrite decide_False; [done|congruence].
Qed.

Lemma fold_records_names (l : list DNSRecord) (acc : gset string * gmap string string) (n : string) :
  n ∈ (foldl add_record acc l).1 ↔
  n ∈ acc.1 ∨ (n ≠ "" ∧ ∃ r, r ∈ l ∧ getName (Name r) = n).
Proof.
  revert acc. induction l as [|r l IH]; intros acc; simpl.
  - split; [auto|]. intros [?|(_ & r & Hin & _)]; [done|]. by apply elem_of_nil in Hin.
  - rewrite IH, add_record_names. setoid_rewrite elem_of_cons. naive_solver.
Qed.

Lemma ids_of_app (n : string) (l1 l2 : list DNSRecord) :
  ids_of n (l1 ++ l2) = ids_of n l1 ++ ids_of n l2.
Proof. unfold ids_of. by rewrite filter_app, fmap_app. Qed.

Lemma fold_records_ids (l : list DNSRecord) (acc : gset string * gmap string string) (n : string) :
  n ≠ "" →
  (foldl add_record acc l).2 !! n = or_else (last (ids_of n l)) (acc.2 !! n).
Proof.
  intros Hn. revert acc. induction l as [|r l IH]; intros acc; [done|].
  cbn [foldl]. rewrite IH, add_record_ids by done.
  change (r :: l) with ([r] ++ l). by rewrite ids_of_app, or_else_last_app.
Qed.

(** [cf] holds the nonempty normalized names of the listed records. *)
Lemma elem_of_managed_names (records : list DNSRecord) (n : string) :
  n ∈ managed_names records ↔ n ≠ "" ∧ ∃ r, r ∈ records ∧ getName (Name r) = n.
Proof.
  unfold managed_names, managed_snapshot. rewrite fold_records_names. simpl.
  rewrite elem_of_empty. naive_solver.
Qed.

(** [cfMap] holds, for a name, the identifier of the last listed record
    with that name. *)
Lemma managed_ids_lookup (records : list DNSRecord) (n : string) :
  n ≠ "" → managed_ids records !! n = last (ids_of n records).
Proof.
  intros Hn. unfold managed_ids, managed_snapshot. rewrite fold_records_ids by done.
  simpl. rewrite lookup_empty. by destruct (last _).
Qed.

Lemma managed_ids_Some (records : list DNSRecord) (n recordID : string) :
  n ≠ "" →
  managed_ids records !! n = Some recordID →
  ∃ r, r ∈ records ∧ getName (Name r) = n ∧ ID r = recordID.
Proof.
  intros Hn. rewrite managed_ids_lookup by done. intros Hl.
  apply last_Some_elem_of in Hl. unfold ids_of in Hl.
  apply list_elem_of_fmap in Hl as (r & -> & Hr).
  apply list_elem_of_filter in Hr as [Hname Hin]. by exists r.
Qed.

Lemma managed_names_is_Some (records : list DNSRecord) (n : string) :
  n ∈ managed_names records → is_Some (managed_ids records !! n).
Proof.
  intros Hin. apply elem_of_managed_names in Hin as (Hn & r & Hr & Hname).
  rewrite managed_ids_lookup by done. apply last_is_Some.
  intros Hnil. assert (ID r ∈ ids_of n records) as Hid.
  { unfold ids_of. apply list_elem_of_fmap. exists r. split; [done|].
    by apply list_elem_of_filter. }
  rewrite Hnil in Hid. by apply elem_of_nil in Hid.
Qed.

(** ** The listing call *)

Lemma ListDNSRecords_ok (api : API) :
  list_fails api = false →
  Cloudflare.ListDNSRecords list_params api
  = mkRun (Ok (listed api)) api [CallList list_params].
Proof.
  intros Hok. unfold Cloudflare.ListDNSRecords. rewrite Hok. reflexivity.
Qed.

Lemma ListDNSRecords_error (api : API) :
  list_fails api = true →
  Cloudflare.ListDNSRecords list_params api = mkRun Error api [CallList list_params].
Proof.
  intros Hf. unfold Cloudflare.ListDNSRecords. by rewrite Hf.
Qed.

Lemma managed_directory_ok (api : API) :
  list_fails api = false →
  managed_directory api = Some (managed_snapshot (listed api)).
Proof.
  intros Hok. unfold managed_directory. by rewrite ListDNSRecords_ok.
Qed.

(** ** The calls of one cycle *)

Lemma trace_bind {A B} (m : M A) (k : A → M B) (api : API) :
  trace (bind m k api) = trace (m api) ++ trace (k (value (m api)) (after (m api))).
Proof. reflexivity. Qed.

Lemma after_bind {A B} (m : M A) (k : A → M B) (api : API) :
  after (bind m k api) = after (k (value (m api)) (after (m api))).
Proof. reflexivity. Qed.

Lemma value_bind {A B} (m : M A) (k : A → M B) (api : API) :
  value (bind m k api) = value (k (value (m api)) (after (m api))).
Proof. reflexivity. Qed.

Lemma CreateDNSRecord_trace (p : DNSRecord) (api : API) :
  trace (Cloudflare.CreateDNSRecord p api) = [CallCreate p].
Proof. unfold Cloudflare.CreateDNSRecord. by destruct (create_fails api p). Qed.

Lemma DeleteDNSRecord_trace (recordID : string) (api : API) :
  trace (Cloudflare.DeleteDNSRecord recordID api) = [CallDelete recordID].
Proof. unfold Cloudflare.DeleteDNSRecord. by destruct (_ || _). Qed.

(** Whatever the provider answers, a name that is in one of [ts] and
    [cf] only gives rise to the calls of [calls_for]. *)
Lemma sync_name_trace (ts cf : gset string) (tsMap cfMap : gmap string string)
    (name : string) (api : API) :
  ¬ (name ∈ ts ∧ name ∈ cf) →
  trace (sync_name ts cf tsMap cfMap name api) = calls_for ts cf tsMap cfMap name.
Proof.
  intros Hone. unfold sync_name, create_branch, delete_branch, calls_for.
  rewrite trace_bind.
  destruct (decide (name ∈ ts)) as [Hts|Hts].
  - rewrite (decide_False (P := name ∈ cf)) by tauto.
    destruct (tsMap !! name) as [ip|]; [|done].
    rewrite trace_bind, value_bind, CreateDNSRecord_trace.
    destruct (value (Cloudflare.CreateDNSRecord (new_record name ip) api)); done.
  - simpl. destruct (decide (name ∈ cf)); [|done].
    destruct (cfMap !! name) as [recordID|]; [|done].
    rewrite trace_bind, DeleteDNSRecord_trace. done.
Qed.

Lemma for_range_trace (ts cf : gset string) (tsMap cfMap : gmap string string)
    (l : list string) (api : API) :
  Forall (λ name, ¬ (name ∈ ts ∧ name ∈ cf)) l →
  trace (for_range l (sync_name ts cf tsMap cfMap) api)
  = l ≫= calls_for ts cf tsMap cfMap.
Proof.
  intros Hl. revert api. induction Hl as [|name l Hone Hl IH]; intros api; [done|].
  cbn [for_range]. rewrite trace_bind, sync_name_trace, IH by done.
  by rewrite bind_cons.
Qed.

Lemma not_both_SymmetricDifference (s other : gset string) (x : string) :
  x ∈ SymmetricDifference s other → ¬ (x ∈ s ∧ x ∈ other).
Proof. unfold SymmetricDifference. set_solver. Qed.

Section Cycle.

Variable ToSlice : gset string → list string.
Hypothesis ToSlice_perm : ∀ X : gset string, ToSlice X ≡ₚ elements X.

Lemma elem_of_ToSlice (X : gset string) (x : string) : x ∈ ToSlice X ↔ x ∈ X.
Proof. by rewrite ToSlice_perm, elem_of_elements. Qed.

Lemma NoDup_ToSlice (X : gset string) : NoDup (ToSlice X).
Proof. rewrite ToSlice_perm. apply NoDup_elements. Qed.

Lemma ToSlice_empty (X : gset string) : X = ∅ → ToSlice X = [].
Proof.
  intros ->. apply Permutation_nil_r. by rewrite ToSlice_perm, elements_empty.
Qed.

Lemma ToSlice_length_0 (X : gset string) :
  (List.length (ToSlice X) =? 0)%nat = true → ToSlice X = [].
Proof. intros H%Nat.eqb_eq. by destruct (ToSlice X). Qed.

(** The calls of a cycle whose listing call succeeds: the listing,
    then the calls of the names of the reconciliation set in the order
    [ToSlice] gives them. *)
Lemma sync_trace (st : Status) (api : API) :
  list_fails api = false →
  trace (sync ToSlice st api)
  = CallList list_params ::
    (ToSlice (ReconciliationSet st api) ≫=
       calls_for (mesh_names st) (managed_names (listed api))
                 (mesh_addrs st) (managed_ids (listed api))).
Proof.
  intros Hok. unfold sync. rewrite trace_bind, ListDNSRecords_ok by done.
  cbn [trace value after app]. f_equal.
  fold (ReconciliationSet st api).
  destruct (List.length (ToSlice (ReconciliationSet st api)) =? 0)%nat eqn:Hlen.
  - apply ToSlice_length_0 in Hlen. by rewrite Hlen.
  - rewrite trace_bind, for_range_trace; [by rewrite app_nil_r|].
    apply Forall_forall. intros name Hin%elem_of_ToSlice.
    by apply not_both_SymmetricDifference.
Qed.

Lemma sync_value (st : Status) (api : API) :
  list_fails api = false →
  value (sync ToSlice st api)
  = if decide (ReconciliationSet st api = ∅) then NoHostNeedSync else SyncEnd.
Proof.
  intros Hok. unfold sync. rewrite value_bind, ListDNSRecords_ok by done.
  cbn [trace value after]. fold (ReconciliationSet st api).
  destruct (List.length (ToSlice (ReconciliationSet st api)) =? 0)%nat eqn:Hlen.
  - apply ToSlice_length_0 in Hlen. rewrite decide_True; [done|].
    apply set_eq. intros x. rewrite <- elem_of_ToSlice, Hlen.
    rewrite elem_of_nil, elem_of_empty. done.
  - rewrite decide_False; [done|]. intros He. apply ToSlice_empty in He.
    rewrite He in Hlen. done.
Qed.

End Cycle.

(** ** Cycles that issue no create and no delete *)

(** C2. In every cycle whose listing call returns an error, [sync]
    issues no create call and no delete call: the listing is the only
    call, and the provider's records are as they were. *)
Theorem sync_list_error_aborts (ToSlice : gset string → list string)
    (st : Status) (api : API) :
  value (Cloudflare.ListDNSRecords list_params api) = Error →
  value (sync ToSlice st api) = ListFailed ∧
  trace (sync ToSlice st api) = [CallList list_params] ∧
  creates (trace (sync ToSlice st api)) = [] ∧
  deletes (trace (sync ToSlice st api)) = [] ∧
  zone (after (sync ToSlice st api)) = zone api.
Proof.
  intros Herr.
  assert (list_fails api = true) as Hf.
  { unfold Cloudflare.ListDNSRecords in Herr. by destruct (list_fails api). }
  unfold sync. rewrite value_bind, trace_bind, after_bind.
  rewrite ListDNSRecords_error by done. cbn [value trace after]. done.
Qed.

Lemma sync_list_error_aborts_witness :
  value (sync elements st_ab api_list_down) = ListFailed ∧
  trace (sync elements st_ab api_list_down) = [CallList list_params] ∧
  creates (trace (sync elements st_ab api_list_down)) = [] ∧
  deletes (trace (sync elements st_ab api_list_down)) = [] ∧
  zone (after (sync elements st_ab api_list_down)) = zone api_list_down.
Proof.
  apply (sync_list_error_aborts elements st_ab api_list_down). reflexivity.
Defined.

Section InSync.

Variable ToSlice : gset string → list string.
Hypothesis ToSlice_perm : ∀ X : gset string, ToSlice X ≡ₚ elements X.

Lemma sync_empty_difference (st : Status) (api : API) :
  list_fails api = false →
  ReconciliationSet st api = ∅ →
  sync ToSlice st api = mkRun NoHostNeedSync api [CallList list_params].
Proof.
  intros Hok He. unfold sync, bind. rewrite ListDNSRecords_ok by done.
  cbn [value trace after]. fold (ReconciliationSet st api).
  by rewrite (ToSlice_empty ToSlice ToSlice_perm _ He).
Qed.

(** C10. In every cycle in which the mesh name set equals the managed
    name set (the symmetric difference is empty), [sync] issues no
    create call and no delete call: the listing is the only call made
    to the provider. *)
Theorem sync_equal_key_sets (st : Status) (api : API) :
  list_fails api = false →
  mesh_names st = managed_names (listed api) →
  ReconciliationSet st api = ∅ ∧
  value (sync ToSlice st api) = NoHostNeedSync ∧
  trace (sync ToSlice st api) = [CallList list_params] ∧
  after (sync ToSlice st api) = api.
Proof.
  intros Hok Heq.
  assert (ReconciliationSet st api = ∅) as He.
  { unfold ReconciliationSet, SymmetricDifference. rewrite Heq. set_solver. }
  by rewrite sync_empty_difference.
Qed.

End InSync.

Lemma elements_reflexive (X : gset string) : elements X ≡ₚ elements X.
Proof. reflexivity. Defined.

Lemma sync_equal_key_sets_witness :
  ReconciliationSet st_ab api_ab = ∅ ∧
  value (sync elements st_ab api_ab) = NoHostNeedSync ∧
  trace (sync elements st_ab api_ab) = [CallList list_params] ∧
  after (sync elements st_ab api_ab) = api_ab.
Proof.
  apply (sync_equal_key_sets elements elements_reflexive st_ab api_ab).
  - reflexivity.
  - vm_compute. reflexivity.
Defined.

(** ** Strings with a common suffix *)

Lemma string_length_app (s t : string) :
  String.length (s ++ t) = (String.length s + String.length t)%nat.
Proof. induction s as [|c s IH]; simpl; [done|]. by rewrite IH. Qed.

Lemma string_app_inj_r (s1 s2 t : string) : (s1 ++ t = s2 ++ t)%string → s1 = s2.
Proof.
  revert s2. induction s1 as [|c1 s1 IH]; intros [|c2 s2] Heq.
  - done.
  - apply (f_equal String.length) in Heq.
    change (String.length t = S (String.length (s2 ++ t))) in Heq.
    rewrite (string_length_app s2 t) in Heq. lia.
  - apply (f_equal String.length) in Heq.
    change (S (String.length (s1 ++ t)) = String.length t) in Heq.
    rewrite (string_length_app s1 t) in Heq. lia.
  - change (String c1 (s1 ++ t) = String c2 (s2 ++ t)) in Heq.
    injection Heq as -> Heq. f_equal. by apply IH.
Qed.

Lemma new_record_name_inj (n1 n2 ip1 : string) (p : DNSRecord) :
  p = new_record n1 ip1 → Name p = (n2 ++ CloudflareDomainSuffix)%string → n1 = n2.
Proof. intros -> Hname. simpl in Hname. by apply string_app_inj_r in Hname. Qed.

(** ** Convergence *)

Lemma elements_pair (x y : string) :
  x ≠ y → elements ({[x; y]} : gset string) ≡ₚ [x; y].
Proof.
  intros Hne. rewrite elements_disj_union by set_solver.
  by rewrite !elements_singleton.
Qed.

Lemma SymmetricDifference_ab_bc (a b c : string) :
  a ≠ b → b ≠ c → a ≠ c →
  SymmetricDifference {[a; b]} {[b; c]} = {[a; c]}.
Proof. intros. unfold SymmetricDifference. set_solver. Qed.

Section Convergence.

Variable ToSlice : gset string → list string.
Hypothesis ToSlice_perm : ∀ X : gset string, ToSlice X ≡ₚ elements X.



End Convergence.


(** ** Which calls a cycle issues *)

Lemma create_in_calls_for (ts cf : gset string) (tsMap cfMap : gmap string string)
    (name : string) (p : DNSRecord) :
  CallCreate p ∈ calls_for ts cf tsMap cfMap name ↔
  name ∈ ts ∧ ∃ ip, tsMap !! name = Some ip ∧ p = new_record name ip.
Proof.
  unfold calls_for. destruct (decide (name ∈ ts)) as [Hts|Hts].
  - destruct (tsMap !! name) as [ip|].
    + rewrite list_elem_of_singleton. split.
      * intros [= ->]. eauto.
      * intros (_ & ip' & [= <-] & ->). done.
    + rewrite elem_of_nil. split; [done|]. by intros (_ & ip & ? & _).
  - split; [|tauto]. destruct (decide (name ∈ cf)); [|by rewrite elem_of_nil].
    destruct (cfMap !! name); [|by rewrite elem_of_nil].
    rewrite list_elem_of_singleton. done.
Qed.

Lemma delete_in_calls_for (ts cf : gset string) (tsMap cfMap : gmap string string)
    (name recordID : string) :
  CallDelete recordID ∈ calls_for ts cf tsMap cfMap name ↔
  (name ∉ ts) ∧ name ∈ cf ∧ cfMap !! name = Some recordID.
Proof.
  unfold calls_for. destruct (decide (name ∈ ts)) as [Hts|Hts].
  - split; [|tauto]. destruct (tsMap !! name); [|by rewrite elem_of_nil].
    rewrite list_elem_of_singleton. done.
  - destruct (decide (name ∈ cf)) as [Hcf|Hcf].
    + destruct (cfMap !! name) as [i|].
      * rewrite list_elem_of_singleton. split; [by intros [= ->]|].
        by intros (_ & _ & [= ->]).
      * rewrite elem_of_nil. split; [done|]. by intros (_ & _ & ?).
    + rewrite elem_of_nil. tauto.
Qed.

Section Calls.

Variable ToSlice : gset string → list string.
Hypothesis ToSlice_perm : ∀ X : gset string, ToSlice X ≡ₚ elements X.

(** A create call is issued exactly for the names of the
    reconciliation set that are mesh names with an address. *)
Lemma create_in_trace (st : Status) (api : API) (p : DNSRecord) :
  list_fails api = false →
  CallCreate p ∈ trace (sync ToSlice st api) ↔
  ∃ name ip, name ∈ ReconciliationSet st api ∧ name ∈ mesh_names st ∧
             mesh_addrs st !! name = Some ip ∧ p = new_record name ip.
Proof.
  intros Hok. rewrite (sync_trace ToSlice ToSlice_perm) by done.
  rewrite elem_of_cons, list_elem_of_bind.
  setoid_rewrite create_in_calls_for.
  setoid_rewrite (elem_of_ToSlice ToSlice ToSlice_perm).
  split.
  - intros [?|(name & (Hts & ip & Hip & ->) & Hin)]; [done|]. eauto 10.
  - intros (name & ip & Hin & Hts & Hip & ->). right. eauto 10.
Qed.

(** A delete call is issued exactly for the identifiers [cfMap] holds
    for the names of the reconciliation set that are managed names. *)
Lemma delete_in_trace (st : Status) (api : API) (recordID : string) :
  list_fails api = false →
  CallDelete recordID ∈ trace (sync ToSlice st api) ↔
  ∃ name, name ∈ ReconciliationSet st api ∧ (name ∉ mesh_names st) ∧
          name ∈ managed_names (listed api) ∧
          managed_ids (listed api) !! name = Some recordID.
Proof.
  intros Hok. rewrite (sync_trace ToSlice ToSlice_perm) by done.
  rewrite elem_of_cons, list_elem_of_bind.
  setoid_rewrite delete_in_calls_for.
  setoid_rewrite (elem_of_ToSlice ToSlice ToSlice_perm).
  split.
  - intros [?|(name & (Hts & Hcf & Hid) & Hin)]; [done|]. eauto 10.
  - intros (name & Hin & Hts & Hcf & Hid). right. eauto 10.
Qed.

(** C7 (amended). In every cycle in which the mesh reports an entry whose
    normalized name [x] is nonempty, no entry of that name has an IPv4
    address, and no managed record exists for [x]: [x] is in the
    symmetric difference, the cycle runs to its end, no create call
    is issued for [x], and every delete call is for the record of
    another name. *)
Theorem sync_skips_missing_address (st : Status) (api : API)
    (ps : PeerStatus) (x : string) :
  list_fails api = false →
  ps ∈ entries st →
  getName (DNSName ps) = x →
  x ≠ "" →
  addresses_of x (entries st) = [] →
  x ∉ managed_names (listed api) →
  x ∈ ReconciliationSet st api ∧
  value (sync ToSlice st api) = SyncEnd ∧
  (∀ p, CallCreate p ∈ trace (sync ToSlice st api) →
        Name p ≠ (x ++ CloudflareDomainSuffix)%string) ∧
  (∀ recordID, CallDelete recordID ∈ trace (sync ToSlice st api) →
        ∃ name, name ≠ x ∧ name ∈ managed_names (listed api) ∧
                managed_ids (listed api) !! name = Some recordID).
Proof.
  intros Hok Hps Hname Hx Hnone Hcf.
  assert (x ∈ mesh_names st) as Hts.
  { apply elem_of_mesh_names. eauto. }
  assert (mesh_addrs st !! x = None) as Hno.
  { rewrite mesh_addrs_lookup by done. by rewrite Hnone. }
  assert (x ∈ ReconciliationSet st api) as Hdiff.
  { unfold ReconciliationSet, SymmetricDifference. set_solver. }
  split; [done|]. split; [|split].
  - rewrite (sync_value ToSlice ToSlice_perm) by done.
    rewrite decide_False; [done|]. set_solver.
  - intros p Hin Hp. apply create_in_trace in Hin; [|done].
    destruct Hin as (name & ip & _ & _ & Hip & Heq).
    assert (name = x) as -> by exact (new_record_name_inj name x ip p Heq Hp).
    congruence.
  - intros recordID Hin. apply delete_in_trace in Hin; [|done].
    destruct Hin as (name & _ & Hnts & Hncf & Hid).
    exists name. split; [|done]. intros ->. done.
Qed.

End Calls.

Lemma sync_skips_missing_address_witness :
  "x" ∈ ReconciliationSet st_x api_empty ∧
  value (sync elements st_x api_empty) = SyncEnd ∧
  (∀ p, CallCreate p ∈ trace (sync elements st_x api_empty) →
        Name p ≠ ("x" ++ CloudflareDomainSuffix)%string) ∧
  (∀ recordID, CallDelete recordID ∈ trace (sync elements st_x api_empty) →
        ∃ name, name ≠ "x" ∧ name ∈ managed_names (listed api_empty) ∧
                managed_ids (listed api_empty) !! name = Some recordID).
Proof.
  apply (sync_skips_missing_address elements elements_reflexive st_x api_empty
           (entry "x.tail.ts.net." [v6 "fd7a::7"]) "x").
  - reflexivity.
  - apply elem_of_cons. right. apply elem_of_cons. by left.
  - reflexivity.
  - discriminate.
  - reflexivity.
  - vm_compute. discriminate.
Defined.

(** C7 (as stated): a mesh entry with a nonempty normalized name [x] and
    no IPv4 address, without managed record, gets no create call.  It
    fails when another entry normalizes to the same name and has an IPv4
    address: lines 93-97 put that address under [tsMap[x]], the lookup
    of line 125 succeeds and the create of line 130 is issued for
    [x.int]. *)
Lemma missing_address_same_name_created :
  ¬ (∀ (ToSlice : gset string → list string) (st : Status) (api : API)
       (ps : PeerStatus) (x : string),
       (∀ X : gset string, ToSlice X ≡ₚ elements X) →
       list_fails api = false →
       ps ∈ entries st →
       getName (DNSName ps) = x →
       x ≠ "" →
       ipv4_strings (TailscaleIPs ps) = [] →
       x ∉ managed_names (listed api) →
       x ∈ ReconciliationSet st api ∧
       value (sync ToSlice st api) = SyncEnd ∧
       (∀ p, CallCreate p ∈ trace (sync ToSlice st api) →
             Name p ≠ (x ++ CloudflareDomainSuffix)%string) ∧
       (∀ recordID, CallDelete recordID ∈ trace (sync ToSlice st api) →
             ∃ name, name ≠ x ∧ name ∈ managed_names (listed api) ∧
                     managed_ids (listed api) !! name = Some recordID)).
Proof.
  intros H.
  destruct (H elements st_xx api_empty (Self st_xx) "x" elements_reflexive)
    as (_ & _ & Hcreate & _).
  - reflexivity.
  - apply elem_of_cons. by left.
  - reflexivity.
  - discriminate.
  - reflexivity.
  - vm_compute. discriminate.
  - apply (Hcreate (new_record "x" "100.64.0.5")); [|reflexivity].
    refine (bool_decide_unpack _ _). vm_compute. exact I.
Qed.

(** ** The managed directory and the result pages *)

Lemma listed_all (api : API) :
  (List.length (filter annotated (zone api)) ≤ 1000)%nat →
  listed api = filter annotated (zone api).
Proof. intros Hlen. unfold listed. by apply take_ge. Qed.

Lemma elem_of_listed (api : API) (r : DNSRecord) :
  r ∈ listed api → r ∈ zone api ∧ annotated r.
Proof.
  unfold listed. intros Hin.
  assert (r ∈ filter annotated (zone api)) as Hf.
  { apply elem_of_take in Hin as (i & Hi & _). by eapply list_elem_of_lookup_2. }
  apply list_elem_of_filter in Hf. tauto.
Qed.

(** C6 (as stated): every record of the zone that carries the management
    comment has its name in the managed directory, on whichever result
    page the provider holds it.  It fails for the 1001st managed record:
    [sync] asks for one page of 1000 records and makes no further
    listing call. *)
Lemma record_past_first_page_missing :
  ¬ (∀ (api : API) (r : DNSRecord),
       list_fails api = false → r ∈ zone api → annotated r →
       ∃ d, managed_directory api = Some d ∧ getName (Name r) ∈ d.1).
Proof.
  intros H.
  assert (∃ d0, managed_directory api_1001 = Some d0 ∧ has_name "h1000" d0 = false)
    as (d0 & Hdir & Hout).
  { exists (managed_snapshot (listed api_1001)).
    split; [by apply managed_directory_ok | vm_compute; reflexivity]. }
  assert (zone api_1001 !! 1000%nat = Some (managed_record "id-1000" "h1000.int.example.com"))
    as Hlast by (vm_compute; reflexivity).
  apply list_elem_of_lookup_2 in Hlast.
  destruct (H api_1001 (managed_record "id-1000" "h1000.int.example.com") eq_refl Hlast)
    as (d & Hd & Hin).
  - right. reflexivity.
  - rewrite Hdir in Hd. injection Hd as <-.
    unfold has_name in Hout. apply bool_decide_eq_false in Hout. exact (Hout Hin).
Qed.

(** C6 (amended). Every record on the one result page the cycle asks for
    (the first 1000 records of the zone that carry the management
    comment) whose normalized name is nonempty has that name as a key of
    the managed directory; the key is mapped to the record's identifier
    when no record listed after it normalizes to the same name. *)
Theorem listed_record_in_managed_directory (api : API)
    (pre post : list DNSRecord) (r : DNSRecord) :
  list_fails api = false →
  take 1000 (filter annotated (zone api)) = pre ++ r :: post →
  getName (Name r) ≠ "" →
  ∃ d, managed_directory api = Some d ∧
       getName (Name r) ∈ d.1 ∧
       (ids_of (getName (Name r)) post = [] → d.2 !! getName (Name r) = Some (ID r)).
Proof.
  intros Hok Hpage Hname. exists (managed_snapshot (listed api)).
  split; [by apply managed_directory_ok|].
  fold (listed api) in Hpage. split.
  - apply elem_of_managed_names. split; [done|]. exists r. split; [|done].
    rewrite Hpage. apply elem_of_app. right. apply elem_of_cons. by left.
  - intros Hpost. apply (managed_ids_lookup (listed api)) in Hname as Hl.
    unfold managed_ids in Hl. rewrite Hl, Hpage.
    change (r :: post) with ([r] ++ post). rewrite !ids_of_app, Hpost, app_nil_r.
    unfold ids_of at 2. rewrite filter_cons, filter_nil, decide_True by done.
    apply last_snoc.
Qed.

Lemma listed_record_in_managed_directory_witness :
  ∃ d, managed_directory api_bc = Some d ∧
       getName (Name (managed_record "id-c" "c.int.example.com")) ∈ d.1 ∧
       (ids_of (getName (Name (managed_record "id-c" "c.int.example.com"))) [] = [] →
        d.2 !! getName (Name (managed_record "id-c" "c.int.example.com")) = Some "id-c").
Proof.
  apply (listed_record_in_managed_directory api_bc
           [managed_record "id-b" "b.int.example.com"] []
           (managed_record "id-c" "c.int.example.com")).
  - reflexivity.
  - reflexivity.
  - vm_compute. discriminate.
Defined.

(** ** The provider after one name *)

Lemma sync_name_after (ts cf : gset string) (tsMap cfMap : gmap string string)
    (name : string) (api : API) :
  ¬ (name ∈ ts ∧ name ∈ cf) →
  after (sync_name ts cf tsMap cfMap name api) =
    if decide (name ∈ ts) then
      match tsMap !! name with
      | Some ip => after (Cloudflare.CreateDNSRecord (new_record name ip) api)
      | None => api
      end
    else if decide (name ∈ cf) then
      match cfMap !! name with
      | Some recordID => after (Cloudflare.DeleteDNSRecord recordID api)
      | None => api
      end
    else api.
Proof.
  intros Hone. unfold sync_name, create_branch, delete_branch.
  rewrite after_bind.
  destruct (decide (name ∈ ts)) as [Hts|Hts].
  - rewrite (decide_False (P := name ∈ cf)) by tauto.
    destruct (tsMap !! name) as [ip|]; [|done].
    rewrite value_bind, after_bind.
    destruct (value (Cloudflare.CreateDNSRecord (new_record name ip) api)); done.
  - cbn [ret value after]. destruct (decide (name ∈ cf)); [|done].
    destruct (cfMap !! name) as [recordID|]; done.
Qed.

Lemma CreateDNSRecord_fails (p : DNSRecord) (api : API) :
  create_fails api p = true →
  Cloudflare.CreateDNSRecord p api = mkRun Error api [CallCreate p].
Proof. intros Hf. unfold Cloudflare.CreateDNSRecord. by rewrite Hf. Qed.

Lemma DeleteDNSRecord_ok (recordID : string) (api : API) :
  value (Cloudflare.DeleteDNSRecord recordID api) = Ok tt →
  after (Cloudflare.DeleteDNSRecord recordID api)
  = set_zone (filter (λ r, ID r ≠ recordID) (zone api)) api.
Proof.
  unfold Cloudflare.DeleteDNSRecord. by destruct (_ || _).
Qed.

Lemma not_elem_of_filter_ID (recordID : string) (z : list DNSRecord) :
  recordID ∉ ID <$> filter (λ r, ID r ≠ recordID) z.
Proof.
  intros Hin. apply list_elem_of_fmap in Hin as (r & -> & Hr).
  apply list_elem_of_filter in Hr as [Hne _]. done.
Qed.

Section Isolation.

Variable ToSlice : gset string → list string.
Hypothesis ToSlice_perm : ∀ X : gset string, ToSlice X ≡ₚ elements X.

Lemma sync_after (st : Status) (api : API) :
  list_fails api = false →
  after (sync ToSlice st api)
  = after (for_range (ToSlice (ReconciliationSet st api))
             (sync_name (mesh_names st) (managed_names (listed api))
                        (mesh_addrs st) (managed_ids (listed api))) api).
Proof.
  intros Hok. unfold sync. rewrite after_bind, ListDNSRecords_ok by done.
  cbn [value after]. fold (ReconciliationSet st api).
  destruct (List.length (ToSlice (ReconciliationSet st api)) =? 0)%nat eqn:Hlen.
  - apply ToSlice_length_0 in Hlen. by rewrite Hlen.
  - by rewrite after_bind.
Qed.

(** C3. Whatever create and delete calls the provider fails, [sync]
    issues the create call of every name of the reconciliation set that
    is a mesh name with an address and the delete call of every name of
    the set that is a managed name.  In the convergence scenario (mesh
    names [a], [b]; managed names [b], [c]), when the create call for
    [a] fails and the delete call for [c] succeeds, the cycle runs to
    its end and leaves the zone without [c]'s record and without any new
    record. *)
Theorem sync_failure_isolation (st : Status) (api : API) :
  list_fails api = false →
  (∀ name, name ∈ ReconciliationSet st api →
     (∀ ip, name ∈ mesh_names st → mesh_addrs st !! name = Some ip →
            CallCreate (new_record name ip) ∈ trace (sync ToSlice st api)) ∧
     (∀ recordID, name ∈ managed_names (listed api) →
            managed_ids (listed api) !! name = Some recordID →
            CallDelete recordID ∈ trace (sync ToSlice st api))) ∧
  (∀ a b c ipa ipb idc : string,
     mesh_names st = {[a; b]} →
     mesh_addrs st !! a = Some ipa →
     mesh_addrs st !! b = Some ipb →
     managed_names (listed api) = {[b; c]} →
     managed_ids (listed api) !! c = Some idc →
     a ≠ b → b ≠ c → a ≠ c →
     create_fails api (new_record a ipa) = true →
     value (Cloudflare.DeleteDNSRecord idc api) = Ok tt →
     value (sync ToSlice st api) = SyncEnd ∧
     zone (after (sync ToSlice st api)) = filter (λ r, ID r ≠ idc) (zone api) ∧
     idc ∉ ID <$> zone (after (sync ToSlice st api))).
Proof.
  intros Hok. split.
  - intros name Hin. split.
    + intros ip Hts Hip. apply (create_in_trace ToSlice ToSlice_perm); [done|].
      eauto 10.
    + intros recordID Hcf Hid. apply (delete_in_trace ToSlice ToSlice_perm); [done|].
      exists name. split; [done|]. split; [|done].
      apply not_both_SymmetricDifference in Hin. tauto.
  - intros a b c ipa ipb idc Hts Ha Hb Hcf Hc Hab Hbc Hac Hcreate Hdelete.
    assert (ReconciliationSet st api = {[a; c]}) as Hdiff.
    { unfold ReconciliationSet. rewrite Hts, Hcf. by apply SymmetricDifference_ab_bc. }
    assert (value (sync ToSlice st api) = SyncEnd) as Hend.
    { rewrite (sync_value ToSlice ToSlice_perm) by done.
      rewrite decide_False; [done|]. rewrite Hdiff. set_solver. }
    assert (zone (after (sync ToSlice st api)) = filter (λ r, ID r ≠ idc) (zone api))
      as Hzone.
    { rewrite sync_after by done. rewrite Hdiff, Hts, Hcf.
      pose proof (ToSlice_perm {[a; c]}) as Hperm.
      rewrite elements_pair in Hperm by done. symmetry in Hperm.
      apply Permutation_length_2_inv in Hperm.
      assert (∀ api', create_fails api' = create_fails api →
                after (sync_name {[a; b]} {[b; c]} (mesh_addrs st)
                         (managed_ids (listed api)) a api') = api') as Hstep_a.
      { intros api' Hsame. rewrite sync_name_after by set_solver.
        rewrite decide_True by set_solver. rewrite Ha.
        rewrite CreateDNSRecord_fails; [done|]. by rewrite Hsame. }
      assert (after (sync_name {[a; b]} {[b; c]} (mesh_addrs st)
                       (managed_ids (listed api)) c api)
              = set_zone (filter (λ r, ID r ≠ idc) (zone api)) api) as Hstep_c.
      { rewrite sync_name_after by set_solver.
        rewrite decide_False by set_solver. rewrite decide_True by set_solver.
        rewrite Hc. by apply DeleteDNSRecord_ok. }
      destruct Hperm as [-> | ->]; cbn [for_range]; rewrite !after_bind.
      - rewrite (Hstep_a api) by done. rewrite Hstep_c. done.
      - rewrite Hstep_c. rewrite Hstep_a by done. done. }
    split; [done|]. split; [done|].
    rewrite Hzone. apply not_elem_of_filter_ID.
Qed.

End Isolation.

Lemma sync_failure_isolation_witness :
  value (sync elements st_ab api_create_down) = SyncEnd ∧
  zone (after (sync elements st_ab api_create_down))
  = filter (λ r, ID r ≠ "id-c") (zone api_create_down) ∧
  "id-c" ∉ ID <$> zone (after (sync elements st_ab api_create_down)).
Proof.
  refine (proj2 (sync_failure_isolation elements elements_reflexive
                   st_ab api_create_down _)
                "a" "b" "c" "100.64.0.1" "100.64.0.2" "id-c" _ _ _ _ _ _ _ _ _ _).
  - reflexivity.
  - vm_compute. reflexivity.
  - vm_compute. reflexivity.
  - vm_compute. reflexivity.
  - vm_compute. reflexivity.
  - vm_compute. reflexivity.
  - discriminate.
  - discriminate.
  - discriminate.
  - reflexivity.
  - vm_compute. reflexivity.
Defined.

(** ** Two cycles in a row *)

Lemma elem_of_names_of (z : list DNSRecord) (m : string) :
  m ∈ names_of z ↔ m ≠ "" ∧ ∃ r, r ∈ z ∧ annotated r ∧ getName (Name r) = m.
Proof.
  unfold names_of. rewrite elem_of_managed_names.
  setoid_rewrite list_elem_of_filter. naive_solver.
Qed.

Lemma NoDup_fmap_inj_on {A B} (f : A → B) (l : list A) (x y : A) :
  NoDup (f <$> l) → x ∈ l → y ∈ l → f x = f y → x = y.
Proof.
  induction l as [|a l IH]; intros Hnd Hx Hy Hf.
  - by apply elem_of_nil in Hx.
  - rewrite fmap_cons in Hnd. apply NoDup_cons in Hnd as [Ha Hnd].
    apply elem_of_cons in Hx as [->|Hx]; apply elem_of_cons in Hy as [->|Hy].
    + done.
    + exfalso. apply Ha. rewrite Hf. by apply list_elem_of_fmap_2.
    + exfalso. apply Ha. rewrite <- Hf. by apply list_elem_of_fmap_2.
    + by apply IH.
Qed.

Lemma mesh_name_canonical (st : Status) (n : string) :
  n ∈ mesh_names st → n ≠ "" ∧ getName (n ++ CloudflareDomainSuffix) = n.
Proof.
  intros (Hn & ps & _ & <-)%elem_of_mesh_names. split; [done|].
  pose proof (getName_suffix (getName (DNSName ps)) "") as Hs.
  change (CloudflareDomainSuffix ++ "")%string with CloudflareDomainSuffix in Hs.
  by rewrite Hs, getName_idemp.
Qed.

Lemma CreateDNSRecord_ok (p : DNSRecord) (api : API) :
  create_fails api p = false →
  ∃ r, (ID r ∉ ID <$> zone api) ∧ Name r = Name p ∧ Comment r = Comment p ∧
       after (Cloudflare.CreateDNSRecord p api) = set_zone (zone api ++ [r]) api.
Proof.
  intros Hok. unfold Cloudflare.CreateDNSRecord. rewrite Hok.
  eexists. split; [|split; [|split]]; [| | |reflexivity]; simpl; [|done..].
  apply infinite_is_fresh.
Qed.

Lemma DeleteDNSRecord_after (recordID : string) (api : API) :
  recordID ≠ "" → delete_fails api recordID = false → recordID ∈ ID <$> zone api →
  after (Cloudflare.DeleteDNSRecord recordID api)
  = set_zone (filter (λ r, ID r ≠ recordID) (zone api)) api.
Proof.
  intros Hne Hok Hin. apply DeleteDNSRecord_ok.
  unfold Cloudflare.DeleteDNSRecord.
  apply String.eqb_neq in Hne. rewrite Hne, Hok.
  by rewrite (bool_decide_eq_true_2 _ Hin).
Qed.

Lemma names_of_snoc (z : list DNSRecord) (r : DNSRecord) :
  annotated r → getName (Name r) ≠ "" →
  names_of (z ++ [r]) = names_of z ∪ {[getName (Name r)]}.
Proof.
  intros Han Hne. apply set_eq. intros m.
  rewrite elem_of_union, elem_of_singleton, !elem_of_names_of.
  setoid_rewrite elem_of_app. setoid_rewrite list_elem_of_singleton.
  naive_solver.
Qed.

Lemma length_filter_filter {A} (P Q : A → Prop)
    `{∀ x, Decision (P x)} `{∀ x, Decision (Q x)} (l : list A) :
  (List.length (filter P (filter Q l)) ≤ List.length (filter P l))%nat.
Proof.
  induction l as [|x l IH]; [done|].
  rewrite (filter_cons Q). destruct (decide (Q x)).
  - rewrite !(filter_cons P). destruct (decide (P x)); simpl; lia.
  - rewrite (filter_cons P). destruct (decide (P x)); simpl; lia.
Qed.

Section Idempotence.

Variable ToSlice : gset string → list string.
Hypothesis ToSlice_perm : ∀ X : gset string, ToSlice X ≡ₚ elements X.

Variables (st : Status) (api0 : API).

Hypothesis list_ok : list_fails api0 = false.
Hypothesis create_ok : ∀ p, create_fails api0 p = false.
Hypothesis delete_ok : ∀ recordID, delete_fails api0 recordID = false.
Hypothesis all_addressed : dom (mesh_addrs st) = mesh_names st.
Hypothesis ids_distinct : NoDup (ID <$> zone api0).
Hypothesis ids_nonempty : "" ∉ ID <$> zone api0.
Hypothesis names_distinct :
  NoDup ((λ r, getName (Name r)) <$> filter annotated (zone api0)).
Hypothesis one_page :
  (List.length (filter annotated (zone api0)) + size (mesh_names st) ≤ 1000)%nat.

Lemma listed_start : listed api0 = filter annotated (zone api0).
Proof. apply listed_all. lia. Qed.

Lemma CycleInv_start : CycleInv st api0 [] api0.
Proof.
  split; try done.
  - intros r1 r2 H1 H2. by apply (NoDup_fmap_inj_on ID (zone api0)).
  - intros r1 r2 H1 H2 Ha1 Ha2.
    apply (NoDup_fmap_inj_on (λ r, getName (Name r)) _ _ _ names_distinct);
      by apply list_elem_of_filter.
  - intros n recordID Hn _ Hid.
    apply elem_of_managed_names in Hn as [Hne _].
    apply managed_ids_Some in Hid as (r & Hr & Hname & Hrid); [|done].
    apply elem_of_listed in Hr as [Hr Han]. eauto.
  - unfold names_of. rewrite <- listed_start. set_solver.
  - simpl. lia.
Qed.

Lemma managed_id_nonempty (n recordID : string) :
  n ∈ managed_names (listed api0) →
  managed_ids (listed api0) !! n = Some recordID → recordID ≠ "".
Proof.
  intros Hn Hid. apply elem_of_managed_names in Hn as [Hne _].
  apply managed_ids_Some in Hid as (r & Hr & _ & <-); [|done].
  apply elem_of_listed in Hr as [Hr _]. intros He. apply ids_nonempty.
  rewrite <- He. by apply list_elem_of_fmap_2.
Qed.

(** A name of the mesh side: the create call adds one managed record of
    that name. *)
Lemma CycleInv_create (seen : list string) (api : API) (n : string) :
  CycleInv st api0 seen api →
  n ∈ mesh_names st → n ∉ managed_names (listed api0) → n ∉ seen →
  CycleInv st api0 (seen ++ [n])
    (after (sync_name (mesh_names st) (managed_names (listed api0))
              (mesh_addrs st) (managed_ids (listed api0)) n api)).
Proof.
  intros Inv Hts Hcf Hnew.
  rewrite sync_name_after by tauto. rewrite decide_True by done.
  assert (is_Some (mesh_addrs st !! n)) as [ip Hip].
  { apply elem_of_dom. by rewrite all_addressed. }
  rewrite Hip.
  destruct (CreateDNSRecord_ok (new_record n ip) api (inv_create _ _ _ _ Inv _))
    as (r & Hfresh & Hname & Hcomment & ->).
  simpl in Hname, Hcomment.
  destruct (mesh_name_canonical st n Hts) as [Hne Hcanon].
  assert (annotated r) as Han by (by right).
  assert (getName (Name r) = n) as Hrn by (by rewrite Hname).
  assert (n ∉ names_of (zone api)) as Habsent.
  { rewrite (inv_keys _ _ _ _ Inv). rewrite elem_of_union, elem_of_difference,
      elem_of_intersection, elem_of_list_to_set. tauto. }
  split; cbn [set_zone zone list_fails create_fails delete_fails].
  - apply Inv.
  - apply Inv.
  - apply Inv.
  - intros r1 r2 [H1| ->%list_elem_of_singleton]%elem_of_app
                 [H2| ->%list_elem_of_singleton]%elem_of_app Heq.
    + by eapply (inv_ids _ _ _ _ Inv).
    + exfalso. apply Hfresh. rewrite <- Heq. by apply list_elem_of_fmap_2.
    + exfalso. apply Hfresh. rewrite Heq. by apply list_elem_of_fmap_2.
    + done.
  - intros r1 r2 [H1| ->%list_elem_of_singleton]%elem_of_app
                 [H2| ->%list_elem_of_singleton]%elem_of_app Ha1 Ha2 Heq.
    + by eapply (inv_names _ _ _ _ Inv).
    + exfalso. apply Habsent. apply elem_of_names_of. split; [done|].
      exists r1. rewrite Heq. done.
    + exfalso. apply Habsent. apply elem_of_names_of. split; [done|].
      exists r2. rewrite <- Heq. done.
    + done.
  - intros m recordID Hm Hnot Hid.
    destruct (inv_present _ _ _ _ Inv m recordID Hm) as (r0 & Hr0 & Hrest); [|done|].
    + intros Hin. apply Hnot. apply elem_of_app. by left.
    + exists r0. split; [|done]. apply elem_of_app. by left.
  - rewrite names_of_snoc by (by rewrite ?Hrn). rewrite Hrn, (inv_keys _ _ _ _ Inv).
    rewrite list_to_set_app_L. simpl. set_solver.
  - rewrite !filter_app, !length_app.
    rewrite (filter_cons_True annotated) by done.
    rewrite (filter_cons_True (λ n0, n0 ∈ mesh_names st)) by done. simpl.
    pose proof (inv_length _ _ _ _ Inv). lia.
Qed.

(** A name of the managed side: the delete call removes the one managed
    record of that name. *)
Lemma CycleInv_delete (seen : list string) (api : API) (n : string) :
  CycleInv st api0 seen api →
  n ∉ mesh_names st → n ∈ managed_names (listed api0) → n ∉ seen →
  CycleInv st api0 (seen ++ [n])
    (after (sync_name (mesh_names st) (managed_names (listed api0))
              (mesh_addrs st) (managed_ids (listed api0)) n api)).
Proof.
  intros Inv Hts Hcf Hnew.
  rewrite sync_name_after by tauto.
  rewrite decide_False by done. rewrite decide_True by done.
  destruct (managed_names_is_Some _ _ Hcf) as [recordID Hid]. rewrite Hid.
  destruct (inv_present _ _ _ _ Inv n recordID Hcf Hnew Hid)
    as (r & Hr & Han & Hrn & Hrid).
  rewrite DeleteDNSRecord_after.
  2: by eapply managed_id_nonempty.
  2: by apply (inv_delete _ _ _ _ Inv).
  2: { rewrite <- Hrid. by apply list_elem_of_fmap_2. }
  assert (∀ r', r' ∈ filter (λ r0, ID r0 ≠ recordID) (zone api) ↔ r' ∈ zone api ∧ r' ≠ r)
    as Hleft.
  { intros r'. rewrite list_elem_of_filter. split.
    - intros [Hne Hin]. split; [done|]. intros ->. done.
    - intros [Hin Hne]. split; [|done]. intros Heq. apply Hne.
      apply (inv_ids _ _ _ _ Inv); [done..|]. by rewrite Heq. }
  split; cbn [set_zone zone list_fails create_fails delete_fails].
  - apply Inv.
  - apply Inv.
  - apply Inv.
  - intros r1 r2 [H1 _]%Hleft [H2 _]%Hleft. by apply (inv_ids _ _ _ _ Inv).
  - intros r1 r2 [H1 _]%Hleft [H2 _]%Hleft. by apply (inv_names _ _ _ _ Inv).
  - intros m recordID' Hm Hnot Hid'.
    assert ((m ∉ seen) ∧ m ≠ n) as [Hmd Hmn].
    { rewrite elem_of_app, list_elem_of_singleton in Hnot. tauto. }
    destruct (inv_present _ _ _ _ Inv m recordID' Hm Hmd Hid')
      as (r0 & Hr0 & Han0 & Hname0 & Hid0).
    exists r0. split; [|done]. apply Hleft. split; [done|]. intros ->. congruence.
  - assert (names_of (filter (λ r0, ID r0 ≠ recordID) (zone api))
            = names_of (zone api) ∖ {[n]}) as ->.
    { apply set_eq. intros m.
      rewrite elem_of_difference, elem_of_singleton, !elem_of_names_of. split.
      - intros (Hne & r' & [Hin Hdiff]%Hleft & Han' & Hname').
        split; [eauto|]. intros ->. apply Hdiff.
        apply (inv_names _ _ _ _ Inv); [done..|]. congruence.
      - intros [(Hne & r' & Hin & Han' & Hname') Hmn]. split; [done|].
        exists r'. split; [|done]. apply Hleft. split; [done|]. intros ->. congruence. }
    rewrite (inv_keys _ _ _ _ Inv), list_to_set_app_L. simpl. set_solver.
  - rewrite filter_app, (filter_cons_False (λ n0, n0 ∈ mesh_names st)) by done.
    rewrite filter_nil, app_nil_r.
    pose proof (inv_length _ _ _ _ Inv) as Hlen.
    etrans; [|exact Hlen]. apply length_filter_filter.
Qed.

Lemma CycleInv_loop (l seen : list string) (api : API) :
  CycleInv st api0 seen api →
  NoDup (seen ++ l) →
  Forall (λ n, n ∈ ReconciliationSet st api0) l →
  CycleInv st api0 (seen ++ l)
    (after (for_range l
              (sync_name (mesh_names st) (managed_names (listed api0))
                 (mesh_addrs st) (managed_ids (listed api0))) api)).
Proof.
  revert seen api. induction l as [|n l IH]; intros seen api Inv Hnd Hl.
  - by rewrite app_nil_r.
  - apply Forall_cons in Hl as [Hn Hl].
    assert (n ∉ seen) as Hnew.
    { apply NoDup_app in Hnd as (_ & Hdisj & _). intros Hin.
      apply (Hdisj n Hin). apply elem_of_cons. by left. }
    cbn [for_range]. rewrite after_bind.
    replace (seen ++ n :: l) with ((seen ++ [n]) ++ l) in * by (by rewrite <- app_assoc).
    apply IH; [|done..].
    unfold ReconciliationSet, SymmetricDifference in Hn.
    apply elem_of_union in Hn as [[Hts Hcf]%elem_of_difference|[Hcf Hts]%elem_of_difference].
    + by apply CycleInv_create.
    + by apply CycleInv_delete.
Qed.

Lemma mesh_side_length (l : list string) :
  NoDup l →
  (List.length (filter (λ n, n ∈ mesh_names st) l) ≤ size (mesh_names st))%nat.
Proof.
  intros Hnd. unfold size, set_size. simpl.
  apply submseteq_length, NoDup_submseteq.
  - by apply NoDup_filter.
  - intros n [Hin _]%list_elem_of_filter. by apply elem_of_elements.
Qed.

(** The provider after the first cycle lists exactly the mesh names. *)
Lemma managed_names_after_sync :
  list_fails (after (sync ToSlice st api0)) = false ∧
  managed_names (listed (after (sync ToSlice st api0))) = mesh_names st.
Proof.
  rewrite (sync_after ToSlice) by done.
  pose proof (CycleInv_loop (ToSlice (ReconciliationSet st api0)) [] api0
                CycleInv_start) as Inv.
  simpl in Inv.
  specialize (Inv (NoDup_ToSlice ToSlice ToSlice_perm _)).
  assert (Forall (λ n, n ∈ ReconciliationSet st api0)
            (ToSlice (ReconciliationSet st api0))) as Hall.
  { apply Forall_forall. intros n Hn. by apply (elem_of_ToSlice ToSlice ToSlice_perm). }
  specialize (Inv Hall).
  split; [apply Inv|].
  rewrite listed_all.
  - fold (names_of (zone (after (for_range (ToSlice (ReconciliationSet st api0))
            (sync_name (mesh_names st) (managed_names (listed api0))
               (mesh_addrs st) (managed_ids (listed api0))) api0)))).
    rewrite (inv_keys _ _ _ _ Inv).
    apply set_eq. intros m.
    rewrite elem_of_union, elem_of_difference, elem_of_intersection,
      elem_of_difference, elem_of_list_to_set,
      (elem_of_ToSlice ToSlice ToSlice_perm).
    unfold ReconciliationSet, SymmetricDifference.
    rewrite elem_of_union, !elem_of_difference.
    destruct (decide (m ∈ mesh_names st));
      destruct (decide (m ∈ managed_names (listed api0))); tauto.
  - pose proof (inv_length _ _ _ _ Inv) as Hlen.
    pose proof (mesh_side_length _ (NoDup_ToSlice ToSlice ToSlice_perm
                                      (ReconciliationSet st api0))).
    lia.
Qed.

(** C4 (amended). When every mesh name has an address, the records of
    the zone have distinct, nonempty identifiers, its managed records
    have distinct normalized names and, together with the mesh names,
    fit the one page a cycle lists, and no provider call fails, then a
    second cycle run right after the first computes an empty
    reconciliation set: it returns at line 121 after its listing call. *)
Theorem sync_twice_in_sync :
  ReconciliationSet st (after (sync ToSlice st api0)) = ∅ ∧
  value (sync ToSlice st (after (sync ToSlice st api0))) = NoHostNeedSync ∧
  trace (sync ToSlice st (after (sync ToSlice st api0))) = [CallList list_params].
Proof.
  destruct managed_names_after_sync as [Hok Hnames].
  assert (ReconciliationSet st (after (sync ToSlice st api0)) = ∅) as He.
  { unfold ReconciliationSet, SymmetricDifference. rewrite Hnames. set_solver. }
  split; [done|].
  by rewrite (sync_empty_difference ToSlice ToSlice_perm).
Qed.

End Idempotence.

(** C4 (as stated): for every mesh view and every zone, a second cycle
    right after the first computes an empty reconciliation set.  It
    fails for a mesh name without an IPv4 address: line 127 skips it in
    every cycle, so it is in the difference again. *)
Lemma sync_twice_stuck_name :
  ¬ (∀ (ToSlice : gset string → list string) (st : Status) (api : API),
       (∀ X : gset string, ToSlice X ≡ₚ elements X) →
       list_fails api = false →
       (∀ p, create_fails api p = false) →
       (∀ recordID, delete_fails api recordID = false) →
       ReconciliationSet st (after (sync ToSlice st api)) = ∅).
Proof.
  intros H.
  specialize (H elements st_x api_empty elements_reflexive eq_refl
                (λ _, eq_refl) (λ _, eq_refl)).
  assert ("x" ∈ ReconciliationSet st_x (after (sync elements st_x api_empty))) as Hin
    by (vm_compute; reflexivity).
  rewrite H in Hin. by apply elem_of_empty in Hin.
Qed.

Lemma sync_twice_in_sync_witness :
  ReconciliationSet st_ab (after (sync elements st_ab api_bc)) = ∅ ∧
  value (sync elements st_ab (after (sync elements st_ab api_bc))) = NoHostNeedSync ∧
  trace (sync elements st_ab (after (sync elements st_ab api_bc))) = [CallList list_params].
Proof.
  apply (sync_twice_in_sync elements elements_reflexive st_ab api_bc).
  - reflexivity.
  - intros p. reflexivity.
  - intros recordID. reflexivity.
  - vm_compute. reflexivity.
  - refine (bool_decide_unpack _ _). vm_compute. exact I.
  - refine (bool_decide_unpack _ _). vm_compute. exact I.
  - refine (bool_decide_unpack _ _). vm_compute. exact I.
  - apply Nat.leb_le. vm_compute. reflexivity.
Defined.

(** ** Records that share a normalized name *)

(** Of two listed records with the same normalized name, [cfMap] keeps
    the identifier of the one listed last. *)
Lemma same_name_records_keep_last :
  managed_ids (listed api_cc) !! "c" = Some "id-2".
Proof. by vm_compute. Qed.

(** Only that record is deleted when the name has left the mesh, so the
    name is in the difference of the next cycle again. *)
Lemma same_name_records_second_cycle :
  ID <$> zone (after (sync elements st_ab api_cc)) = ["id-1"; "0"; "1"] ∧
  "c" ∈ ReconciliationSet st_ab (after (sync elements st_ab api_cc)).
Proof. split; by vm_compute. Qed.

(** * Further properties of [getName] and [sync] *)

(** ** Canonical names *)

Lemma ToLower_empty (s : string) : ToLower s = "" ↔ s = "".
Proof. destruct s; simpl; split; intros H; done. Qed.

Lemma first_segment_empty (s : string) :
  first_segment s = "" ↔ s = "" ∨ ∃ t, s = String "." t.
Proof.
  destruct s as [|c s]; simpl.
  - split; [by left|done].
  - destruct (Ascii.eqb c ".") eqn:E.
    + apply Ascii.eqb_eq in E as ->. split; [|done]. intros _. right. by exists s.
    + split; [done|]. intros [?|[t [= -> _]]]; [done|].
      by rewrite Ascii.eqb_refl in E.
Qed.

(** X1. [getName] returns the empty name, which lines 77, 90 and 113
    keep out of both directories, exactly for the empty input and for an
    input that starts with a dot. *)
Theorem getName_empty_iff (s : string) :
  getName s = "" ↔ s = "" ∨ ∃ t, s = String "." t.
Proof.
  rewrite getName_spec. unfold normalize_spec.
  by rewrite ToLower_empty, first_segment_empty.
Qed.

(** X2. A name returned by [getName] is canonical: it holds no dot, it
    is in lower case already, and normalizing it again changes
    nothing. *)
Theorem getName_canonical (s : string) :
  first_segment (getName s) = getName s ∧
  ToLower (getName s) = getName s ∧
  getName (getName s) = getName s.
Proof.
  split; [|split].
  - rewrite getName_spec. unfold normalize_spec.
    by rewrite first_segment_ToLower, first_segment_idemp.
  - rewrite getName_spec. unfold normalize_spec. apply ToLower_idemp.
  - apply getName_idemp.
Qed.

Lemma string_app_assoc (a b c : string) : ((a ++ b) ++ c = a ++ (b ++ c))%string.
Proof.
  induction a as [|x a IH]; [done|].
  change (String x ((a ++ b) ++ c) = String x (a ++ (b ++ c)))%string. by rewrite IH.
Qed.

(** X3. The record [sync] creates for a canonical name reads back under
    that name: whatever the provider appends to the record name
    (the zone name), [getName] of it is the name the record was created
    for. *)
Theorem new_record_name_round_trip (s ip rest : string) :
  getName (Name (new_record (getName s) ip) ++ rest) = getName s.
Proof.
  simpl. rewrite string_app_assoc, getName_suffix. apply getName_idemp.
Qed.

(** ** The two directories *)

Lemma fold_entries_addrs_empty (l : list PeerStatus) (acc : gset string * gmap string string) :
  (foldl add_entry acc l).2 !! "" = acc.2 !! "".
Proof.
  revert acc. induction l as [|ps l IH]; intros acc; [done|].
  cbn [foldl]. rewrite IH. unfold add_entry.
  destruct (decide (getName (DNSName ps) ≠ "")) as [Hne|_]; [|done].
  simpl. rewrite add_ips_lookup. by rewrite decide_False.
Qed.

Lemma elem_of_addresses_of (n a : string) (l : list PeerStatus) :
  a ∈ addresses_of n l ↔
  ∃ ps ip, ps ∈ l ∧ getName (DNSName ps) = n ∧
           ip ∈ TailscaleIPs ps ∧ Is4 ip = true ∧ Addr_String ip = a.
Proof.
  unfold addresses_of. rewrite list_elem_of_bind. split.
  - intros (ps & Ha & Hps). destruct (decide (getName (DNSName ps) = n)) as [Hn|Hn].
    + unfold ipv4_strings in Ha. apply list_elem_of_fmap in Ha as (ip & -> & Hip).
      apply list_elem_of_filter in Hip as [H4 Hip]. apply Is_true_true in H4.
      exists ps, ip. done.
    + by apply elem_of_nil in Ha.
  - intros (ps & ip & Hps & Hn & Hip & H4 & <-). exists ps. split; [|done].
    rewrite decide_True by done. unfold ipv4_strings.
    apply list_elem_of_fmap_2. apply list_elem_of_filter. split; [|done].
    by apply Is_true_true.
Qed.

Lemma mesh_addrs_Some_entry (st : Status) (n a : string) :
  mesh_addrs st !! n = Some a →
  ∃ ps ip, ps ∈ entries st ∧ getName (DNSName ps) = n ∧
           ip ∈ TailscaleIPs ps ∧ Is4 ip = true ∧ Addr_String ip = a.
Proof.
  intros Hl. destruct (decide (n = "")) as [->|Hn].
  - unfold mesh_addrs in Hl.
    rewrite mesh_snapshot_entries, fold_entries_addrs_empty in Hl. done.
  - rewrite mesh_addrs_lookup in Hl by done.
    apply last_Some_elem_of in Hl. by apply elem_of_addresses_of.
Qed.

(** X4. Every address in [tsMap] is the printed form of an IPv4 address
    of a mesh entry that normalizes to the key: an IPv6 address never
    gets into the map (lines 81 and 94). *)
Theorem mesh_addrs_only_ipv4 (st : Status) (n a : string) :
  mesh_addrs st !! n = Some a →
  ∃ ps ip, ps ∈ entries st ∧ getName (DNSName ps) = n ∧
           ip ∈ TailscaleIPs ps ∧ Is4 ip = true ∧ Addr_String ip = a.
Proof. apply mesh_addrs_Some_entry. Qed.

Lemma mesh_addrs_only_ipv4_witness :
  ∃ ps ip, ps ∈ entries st_ab ∧ getName (DNSName ps) = "b" ∧
           ip ∈ TailscaleIPs ps ∧ Is4 ip = true ∧ Addr_String ip = "100.64.0.2".
Proof.
  apply (mesh_addrs_only_ipv4 st_ab "b" "100.64.0.2"). vm_compute. reflexivity.
Defined.

(** X5. The keys of [tsMap] are names of [ts], and the empty name is in
    neither: a name can be in [ts] without an address, never the other
    way round. *)
Theorem mesh_addrs_keys_named (st : Status) :
  dom (mesh_addrs st) ⊆ mesh_names st ∧ "" ∉ mesh_names st.
Proof.
  split.
  - intros n [a Ha]%elem_of_dom.
    destruct (mesh_addrs_Some_entry st n a Ha) as (ps & ip & Hps & Hn & _).
    apply elem_of_mesh_names. split; [|eauto].
    intros ->. unfold mesh_addrs in Ha.
    rewrite mesh_snapshot_entries, fold_entries_addrs_empty in Ha. done.
  - intros [Hne _]%elem_of_mesh_names. done.
Qed.

(** ** The order of the Go map range over [st.Peer] *)

(** X6. The mesh name set does not depend on the order in which the
    range statement of line 88 visits the peers. *)
Theorem mesh_names_order (st st' : Status) :
  Self st = Self st' → Peer st ≡ₚ Peer st' →
  mesh_names st = mesh_names st'.
Proof.
  intros Hself Hperm. apply set_eq. intros n.
  rewrite !elem_of_mesh_names. unfold entries. rewrite Hself.
  by setoid_rewrite Hperm.
Qed.

Lemma mesh_names_order_witness :
  mesh_names {| Self := entry "c.ts.net" []; Peer := Peer st_ab ++ Peer st_x |}
  = mesh_names {| Self := entry "c.ts.net" []; Peer := Peer st_x ++ Peer st_ab |}.
Proof.
  apply mesh_names_order.
  - reflexivity.
  - apply Permutation_app_comm.
Defined.

Lemma addresses_of_none (n : string) (l : list PeerStatus) :
  (∀ ps, ps ∈ l → getName (DNSName ps) ≠ n) → addresses_of n l = [].
Proof.
  intros Hno. induction l as [|ps l IH]; [done|].
  unfold addresses_of in *. rewrite bind_cons.
  rewrite decide_False by (apply Hno, elem_of_cons; by left).
  rewrite IH; [done|]. intros ps' Hin. apply Hno, elem_of_cons. by right.
Qed.

Lemma addresses_of_unique (n : string) (l : list PeerStatus) (ps : PeerStatus) :
  NoDup ((λ e, getName (DNSName e)) <$> l) →
  ps ∈ l → getName (DNSName ps) = n →
  addresses_of n l = ipv4_strings (TailscaleIPs ps).
Proof.
  intros Hnd Hin Hn. induction l as [|e l IH]; [by apply elem_of_nil in Hin|].
  rewrite fmap_cons in Hnd. apply NoDup_cons in Hnd as [He Hnd].
  unfold addresses_of in *. rewrite bind_cons.
  apply elem_of_cons in Hin as [<-|Hin].
  - rewrite decide_True by done.
    fold (addresses_of n l). rewrite addresses_of_none; [by rewrite app_nil_r|].
    intros ps' Hps' Heq. apply He. rewrite Hn, <- Heq.
    by apply (list_elem_of_fmap_2 (λ e, getName (DNSName e))).
  - rewrite decide_False.
    + by apply IH.
    + intros Heq. apply He. rewrite Heq, <- Hn.
      by apply (list_elem_of_fmap_2 (λ e, getName (DNSName e))).
Qed.

Lemma addresses_of_Permutation (n : string) (l l' : list PeerStatus) :
  NoDup ((λ e, getName (DNSName e)) <$> l) → l ≡ₚ l' →
  addresses_of n l = addresses_of n l'.
Proof.
  intros Hnd Hperm.
  assert (NoDup ((λ e, getName (DNSName e)) <$> l')) as Hnd' by (by rewrite <- Hperm).
  destruct (decide (Exists (λ ps, getName (DNSName ps) = n) l)) as [Hex|Hno].
  - apply Exists_exists in Hex as (ps & Hin & Hn).
    rewrite (addresses_of_unique n l ps), (addresses_of_unique n l' ps); try done.
    by rewrite <- Hperm.
  - rewrite !addresses_of_none; [done| |].
    + intros ps Hin Hn. apply Hno. apply Exists_exists. exists ps.
      by rewrite Hperm.
    + intros ps Hin Hn. apply Hno. apply Exists_exists. eauto.
Qed.

(** X7. When no two mesh entries normalize to the same name, [tsMap]
    does not depend on the order of the range over the peers either. *)
Theorem mesh_addrs_order (st st' : Status) :
  Self st = Self st' → Peer st ≡ₚ Peer st' →
  NoDup ((λ e, getName (DNSName e)) <$> entries st) →
  mesh_addrs st = mesh_addrs st'.
Proof.
  intros Hself Hperm Hnd. apply map_eq. intros n.
  destruct (decide (n = "")) as [->|Hn].
  - unfold mesh_addrs. by rewrite !mesh_snapshot_entries, !fold_entries_addrs_empty.
  - rewrite !mesh_addrs_lookup by done. f_equal.
    apply addresses_of_Permutation; [done|].
    unfold entries. rewrite Hself. by apply Permutation_cons.
Qed.

Lemma mesh_addrs_order_witness :
  mesh_addrs {| Self := entry "c.ts.net" []; Peer := Peer st_ab ++ Peer st_x |}
  = mesh_addrs {| Self := entry "c.ts.net" []; Peer := Peer st_x ++ Peer st_ab |}.
Proof.
  apply mesh_addrs_order.
  - reflexivity.
  - apply Permutation_app_comm.
  - refine (bool_decide_unpack _ _). vm_compute. exact I.
Defined.

(** ** The keys of the managed directory *)

Lemma fold_records_ids_empty (l : list DNSRecord) (acc : gset string * gmap string string) :
  (foldl add_record acc l).2 !! "" = acc.2 !! "".
Proof.
  revert acc. induction l as [|r l IH]; intros acc; [done|].
  cbn [foldl]. rewrite IH. unfold add_record.
  destruct (decide (getName (Name r) ≠ "")) as [Hne|_]; [|done].
  simpl. by rewrite lookup_insert_ne.
Qed.

(** X8. [cfMap] has exactly the names of [cf] as keys: for a name of
    [cf] the lookup of line 144 always finds an identifier, so the
    [continue] of line 146 is never taken. *)
Theorem managed_ids_keys (records : list DNSRecord) :
  dom (managed_ids records) = managed_names records.
Proof.
  apply set_eq. intros n. rewrite elem_of_dom. split.
  - intros [recordID Hid]. destruct (decide (n = "")) as [->|Hn].
    + unfold managed_ids, managed_snapshot in Hid.
      rewrite fold_records_ids_empty in Hid. done.
    + apply managed_ids_Some in Hid as (r & Hr & Hname & _); [|done].
      apply elem_of_managed_names. eauto.
  - apply managed_names_is_Some.
Qed.

(** ** The calls of a cycle, whatever the provider answers *)

Lemma sync_trace_error (ToSlice : gset string → list string) (st : Status) (api : API) :
  list_fails api = true → trace (sync ToSlice st api) = [CallList list_params].
Proof.
  intros Hf. unfold sync. rewrite trace_bind, ListDNSRecords_error by done. done.
Qed.

Lemma calls_for_length (ts cf : gset string) (tsMap cfMap : gmap string string)
    (name : string) :
  (List.length (calls_for ts cf tsMap cfMap name) ≤ 1)%nat.
Proof.
  unfold calls_for. repeat case_decide; repeat case_match; simpl; lia.
Qed.

Lemma bind_length_le {A B} (f : A → list B) (l : list A) :
  (∀ x, List.length (f x) ≤ 1)%nat → (List.length (l ≫= f) ≤ List.length l)%nat.
Proof.
  intros Hf. induction l as [|x l IH]; [done|].
  rewrite bind_cons, length_app. simpl. specialize (Hf x). lia.
Qed.

Section Traces.

Variable ToSlice : gset string → list string.
Hypothesis ToSlice_perm : ∀ X : gset string, ToSlice X ≡ₚ elements X.

(** X9. A cycle makes at most one call per name of the reconciliation
    set after its listing call: nothing is retried within a cycle. *)
Theorem sync_call_budget (st : Status) (api : API) :
  (List.length (trace (sync ToSlice st api)) ≤ 1 + size (ReconciliationSet st api))%nat.
Proof.
  destruct (list_fails api) eqn:Hl.
  - rewrite sync_trace_error by done. simpl. lia.
  - rewrite (sync_trace ToSlice ToSlice_perm) by done. simpl.
    apply le_n_S. etrans; [apply bind_length_le, calls_for_length|].
    unfold size, set_size. simpl. by rewrite ToSlice_perm.
Qed.

(** X10. Every delete call of a cycle names the identifier of a record
    of the zone that carries the management comment and whose
    normalized name is nonempty and not a mesh name. *)
Theorem sync_deletes_only_managed (st : Status) (api : API) (recordID : string) :
  CallDelete recordID ∈ trace (sync ToSlice st api) →
  ∃ r, r ∈ zone api ∧ annotated r ∧ ID r = recordID ∧
       getName (Name r) ≠ "" ∧ getName (Name r) ∉ mesh_names st.
Proof.
  intros Hin. destruct (list_fails api) eqn:Hl.
  - rewrite sync_trace_error in Hin by done.
    apply list_elem_of_singleton in Hin. done.
  - apply (delete_in_trace ToSlice ToSlice_perm) in Hin; [|done].
    destruct Hin as (name & _ & Hts & Hcf & Hid).
    apply elem_of_managed_names in Hcf as [Hne _].
    apply managed_ids_Some in Hid as (r & Hr & Hname & Hrid); [|done].
    apply elem_of_listed in Hr as [Hr Han].
    exists r. rewrite Hname. done.
Qed.

(** X11. Every create call of a cycle asks for an A record with the
    management comment and TTL 1, named after a mesh entry that has no
    managed record, whose content is the printed form of an IPv4
    address of an entry of that name. *)
Theorem sync_creates_only_mesh_ipv4 (st : Status) (api : API) (p : DNSRecord) :
  CallCreate p ∈ trace (sync ToSlice st api) →
  Type_ p = "A" ∧ Comment p = CloudflareSyncDNSComment ∧ TTL p = 1%Z ∧
  ∃ ps ip, ps ∈ entries st ∧ ip ∈ TailscaleIPs ps ∧ Is4 ip = true ∧
           Name p = (getName (DNSName ps) ++ CloudflareDomainSuffix)%string ∧
           Content p = Addr_String ip ∧
           getName (DNSName ps) ∉ managed_names (listed api).
Proof.
  intros Hin. destruct (list_fails api) eqn:Hl.
  - rewrite sync_trace_error in Hin by done.
    apply list_elem_of_singleton in Hin. done.
  - apply (create_in_trace ToSlice ToSlice_perm) in Hin; [|done].
    destruct Hin as (name & a & Hdiff & Hts & Ha & ->).
    split; [done|]. split; [done|]. split; [done|].
    destruct (mesh_addrs_Some_entry st name a Ha) as (ps & ip & Hps & Hn & Hip & H4 & Hs).
    exists ps, ip. rewrite Hn. simpl. split; [done|]. split; [done|].
    split; [done|]. split; [done|]. split; [done|].
    apply not_both_SymmetricDifference in Hdiff. tauto.
Qed.

End Traces.

Lemma reverse_elements_perm (X : gset string) : reverse (elements X) ≡ₚ elements X.
Proof. apply reverse_Permutation. Defined.

Lemma sync_call_budget_witness :
  (List.length (trace (sync elements st_ab api_bc))
   ≤ 1 + size (ReconciliationSet st_ab api_bc))%nat.
Proof.
  apply (sync_call_budget elements elements_reflexive st_ab api_bc).
Defined.

Lemma sync_deletes_only_managed_witness :
  ∃ r, r ∈ zone api_bc ∧ annotated r ∧ ID r = "id-c" ∧
       getName (Name r) ≠ "" ∧ getName (Name r) ∉ mesh_names st_ab.
Proof.
  apply (sync_deletes_only_managed elements elements_reflexive st_ab api_bc "id-c").
  refine (bool_decide_unpack _ _). vm_compute. exact I.
Defined.

Lemma sync_creates_only_mesh_ipv4_witness :
  Type_ (new_record "a" "100.64.0.1") = "A" ∧
  Comment (new_record "a" "100.64.0.1") = CloudflareSyncDNSComment ∧
  TTL (new_record "a" "100.64.0.1") = 1%Z ∧
  ∃ ps ip, ps ∈ entries st_ab ∧ ip ∈ TailscaleIPs ps ∧ Is4 ip = true ∧
           Name (new_record "a" "100.64.0.1")
           = (getName (DNSName ps) ++ CloudflareDomainSuffix)%string ∧
           Content (new_record "a" "100.64.0.1") = Addr_String ip ∧
           getName (DNSName ps) ∉ managed_names (listed api_bc).
Proof.
  apply (sync_creates_only_mesh_ipv4 elements elements_reflexive st_ab api_bc
           (new_record "a" "100.64.0.1")).
  refine (bool_decide_unpack _ _). vm_compute. exact I.
Defined.

(** X12. The calls of a cycle and its outcome do not depend on the order
    in which [ToSlice] hands out the names, up to the order of the
    creates and deletes after the listing call. *)
Theorem sync_trace_order (T1 T2 : gset string → list string) (st : Status) (api : API) :
  (∀ X : gset string, T1 X ≡ₚ elements X) →
  (∀ X : gset string, T2 X ≡ₚ elements X) →
  value (sync T1 st api) = value (sync T2 st api) ∧
  head (trace (sync T1 st api)) = Some (CallList list_params) ∧
  trace (sync T1 st api) ≡ₚ trace (sync T2 st api).
Proof.
  intros P1 P2. destruct (list_fails api) eqn:Hl.
  - rewrite !sync_trace_error by done.
    unfold sync. rewrite !value_bind, ListDNSRecords_error by done. done.
  - rewrite !sync_value by done.
    rewrite (sync_trace T1 P1), (sync_trace T2 P2) by done.
    split; [done|]. split; [done|].
    apply Permutation_cons; [done|]. by rewrite P1, P2.
Qed.

Lemma sync_trace_order_witness :
  value (sync elements st_ab api_bc) = value (sync (reverse ∘ elements) st_ab api_bc) ∧
  head (trace (sync elements st_ab api_bc)) = Some (CallList list_params) ∧
  trace (sync elements st_ab api_bc) ≡ₚ trace (sync (reverse ∘ elements) st_ab api_bc).
Proof.
  apply (sync_trace_order elements (reverse ∘ elements) st_ab api_bc).
  - exact elements_reflexive.
  - exact reverse_elements_perm.
Defined.

(** ** The zone after a cycle, whatever the provider answers *)

Lemma CreateDNSRecord_zone (p : DNSRecord) (api : API) :
  zone (after (Cloudflare.CreateDNSRecord p api)) = zone api ∨
  ∃ r, zone (after (Cloudflare.CreateDNSRecord p api)) = zone api ++ [r] ∧
       Type_ r = Type_ p ∧ Name r = Name p ∧ Content r = Content p ∧
       Comment r = Comment p ∧ TTL r = TTL p.
Proof.
  unfold Cloudflare.CreateDNSRecord. destruct (create_fails api p); [by left|].
  right. eexists. split; [reflexivity|]. done.
Qed.

Lemma DeleteDNSRecord_zone (recordID : string) (api : API) :
  zone (after (Cloudflare.DeleteDNSRecord recordID api)) = zone api ∨
  zone (after (Cloudflare.DeleteDNSRecord recordID api))
  = filter (λ r, ID r ≠ recordID) (zone api).
Proof.
  unfold Cloudflare.DeleteDNSRecord. destruct (_ || _); [by left|by right].
Qed.

(** A record stays through the loop when no delete of the loop names
    its identifier. *)
Lemma for_range_keeps (ts cf : gset string) (tsMap cfMap : gmap string string)
    (l : list string) (api : API) (r : DNSRecord) :
  Forall (λ name, ¬ (name ∈ ts ∧ name ∈ cf)) l →
  (∀ name recordID, name ∈ l → name ∈ cf → cfMap !! name = Some recordID →
                    ID r ≠ recordID) →
  r ∈ zone api →
  r ∈ zone (after (for_range l (sync_name ts cf tsMap cfMap) api)).
Proof.
  intros Hl. revert api. induction Hl as [|name l Hone Hl IH]; intros api Hid Hr; [done|].
  cbn [for_range]. rewrite after_bind. apply IH.
  - intros n i Hn. apply Hid. apply elem_of_cons. by right.
  - rewrite sync_name_after by done.
    destruct (decide (name ∈ ts)) as [Hts|Hts].
    + destruct (tsMap !! name) as [ip|]; [|done].
      destruct (CreateDNSRecord_zone (new_record name ip) api) as [->|(r' & -> & _)];
        [done|]. apply elem_of_app. by left.
    + destruct (decide (name ∈ cf)) as [Hcf|Hcf]; [|done].
      destruct (cfMap !! name) as [recordID|] eqn:Hlook; [|done].
      destruct (DeleteDNSRecord_zone recordID api) as [->| ->]; [done|].
      apply list_elem_of_filter. split; [|done].
      apply (Hid name); [apply elem_of_cons; by left|done..].
Qed.

(** A record of the zone after the loop was there before it, or is the
    record of a create call of the loop. *)
Lemma for_range_origin (ts cf : gset string) (tsMap cfMap : gmap string string)
    (l : list string) (api : API) (r : DNSRecord) :
  Forall (λ name, ¬ (name ∈ ts ∧ name ∈ cf)) l →
  r ∈ zone (after (for_range l (sync_name ts cf tsMap cfMap) api)) →
  r ∈ zone api ∨
  ∃ name ip, name ∈ l ∧ name ∈ ts ∧ tsMap !! name = Some ip ∧
             Type_ r = "A" ∧ Name r = (name ++ CloudflareDomainSuffix)%string ∧
             Content r = ip ∧ Comment r = CloudflareSyncDNSComment ∧ TTL r = 1%Z.
Proof.
  intros Hl. revert api. induction Hl as [|name l Hone Hl IH]; intros api Hr; [by left|].
  cbn [for_range] in Hr. rewrite after_bind in Hr. apply IH in Hr.
  destruct Hr as [Hr|(n & ip & Hn & Hrest)].
  2: { right. exists n, ip. split; [apply elem_of_cons; by right|done]. }
  rewrite sync_name_after in Hr by done.
  destruct (decide (name ∈ ts)) as [Hts|Hts].
  - destruct (tsMap !! name) as [ip|] eqn:Hip; [|by left].
    destruct (CreateDNSRecord_zone (new_record name ip) api)
      as [Hz|(r' & Hz & Ht & Hn & Hc & Hm & Hl')]; rewrite Hz in Hr; [by left|].
    apply elem_of_app in Hr as [Hr| ->%list_elem_of_singleton]; [by left|].
    right. exists name, ip. split; [apply elem_of_cons; by left|]. done.
  - destruct (decide (name ∈ cf)) as [Hcf|Hcf]; [|by left].
    destruct (cfMap !! name) as [recordID|]; [|by left].
    destruct (DeleteDNSRecord_zone recordID api) as [Hz|Hz]; rewrite Hz in Hr; [by left|].
    apply list_elem_of_filter in Hr. left. tauto.
Qed.

Lemma sync_after_error (ToSlice : gset string → list string) (st : Status) (api : API) :
  list_fails api = true → after (sync ToSlice st api) = api.
Proof.
  intros Hf. unfold sync. rewrite after_bind, ListDNSRecords_error by done. done.
Qed.

Section Frame.

Variable ToSlice : gset string → list string.
Hypothesis ToSlice_perm : ∀ X : gset string, ToSlice X ≡ₚ elements X.

Lemma ToSlice_one_side (st : Status) (api : API) :
  Forall (λ name, ¬ (name ∈ mesh_names st ∧ name ∈ managed_names (listed api)))
         (ToSlice (ReconciliationSet st api)).
Proof.
  apply Forall_forall. intros name Hin%(elem_of_ToSlice ToSlice ToSlice_perm).
  by apply not_both_SymmetricDifference.
Qed.

Lemma sync_keeps (st : Status) (api : API) (r : DNSRecord) :
  NoDup (ID <$> zone api) →
  r ∈ zone api →
  (∀ r', r' ∈ listed api → getName (Name r') ∉ mesh_names st → r' ≠ r) →
  r ∈ zone (after (sync ToSlice st api)).
Proof.
  intros Hnd Hr Hother. destruct (list_fails api) eqn:Hl.
  - by rewrite sync_after_error.
  - rewrite (sync_after ToSlice) by done.
    apply for_range_keeps; [apply ToSlice_one_side| |done].
    intros name recordID Hin Hcf Hid Heq.
    apply (elem_of_ToSlice ToSlice ToSlice_perm) in Hin.
    apply not_both_SymmetricDifference in Hin.
    apply elem_of_managed_names in Hcf as Hne. destruct Hne as [Hne _].
    apply managed_ids_Some in Hid as (r' & Hr' & Hname & Hrid); [|done].
    apply (Hother r' Hr'); [rewrite Hname; tauto|].
    apply elem_of_listed in Hr' as [Hr' _].
    apply (NoDup_fmap_inj_on ID (zone api)); [done..|]. congruence.
Qed.

(** X13. When the records of the zone have distinct identifiers, a cycle
    never removes a record that does not carry the management comment,
    whichever calls fail. *)
Theorem sync_keeps_unmanaged (st : Status) (api : API) (r : DNSRecord) :
  NoDup (ID <$> zone api) →
  r ∈ zone api → ¬ annotated r →
  r ∈ zone (after (sync ToSlice st api)).
Proof.
  intros Hnd Hr Hnot. apply sync_keeps; [done..|].
  intros r' [_ Han]%elem_of_listed _ ->. done.
Qed.

(** X14. There is no update in place: a listed managed record whose
    normalized name is a mesh name stays in the zone as it is, whatever
    its content, and no create call is made for its name. *)
Theorem sync_no_update_in_place (st : Status) (api : API) (r : DNSRecord) :
  NoDup (ID <$> zone api) →
  list_fails api = false →
  r ∈ listed api → getName (Name r) ∈ mesh_names st →
  r ∈ zone (after (sync ToSlice st api)) ∧
  ∀ p, CallCreate p ∈ trace (sync ToSlice st api) →
       Name p ≠ (getName (Name r) ++ CloudflareDomainSuffix)%string.
Proof.
  intros Hnd Hl Hr Hts. split.
  - apply sync_keeps; [done| |].
    + by apply elem_of_listed in Hr as [Hr _].
    + intros r' _ Hnot ->. done.
  - intros p Hin Hname.
    apply (create_in_trace ToSlice ToSlice_perm) in Hin; [|done].
    destruct Hin as (name & ip & Hdiff & _ & _ & Hp).
    assert (name = getName (Name r)) as ->
      by exact (new_record_name_inj name _ ip p Hp Hname).
    apply not_both_SymmetricDifference in Hdiff. apply Hdiff. split; [done|].
    apply elem_of_managed_names. split; [|eauto].
    apply elem_of_mesh_names in Hts. tauto.
Qed.

Lemma sync_zone_old_or_new (st : Status) (api : API) (r : DNSRecord) :
  r ∈ zone (after (sync ToSlice st api)) →
  r ∈ zone api ∨
  ∃ name ip, name ∈ mesh_names st ∧ (name ∉ managed_names (listed api)) ∧
             mesh_addrs st !! name = Some ip ∧
             Type_ r = "A" ∧ Name r = (name ++ CloudflareDomainSuffix)%string ∧
             Content r = ip ∧ Comment r = CloudflareSyncDNSComment ∧ TTL r = 1%Z.
Proof.
  intros Hr. destruct (list_fails api) eqn:Hl.
  - rewrite sync_after_error in Hr by done. by left.
  - rewrite (sync_after ToSlice) in Hr by done.
    apply for_range_origin in Hr; [|apply ToSlice_one_side].
    destruct Hr as [Hr|(name & ip & Hin & Hts & Hrest)]; [by left|].
    right. exists name, ip. split; [done|]. split; [|done].
    apply (elem_of_ToSlice ToSlice ToSlice_perm) in Hin.
    apply not_both_SymmetricDifference in Hin. tauto.
Qed.

(** X15. Every record of the zone after a cycle was in the zone before
    it or is a new A record with the management comment and TTL 1, named
    after a mesh name without managed record and holding the address
    [tsMap] has for that name. *)
Theorem sync_zone_origin (st : Status) (api : API) (r : DNSRecord) :
  r ∈ zone (after (sync ToSlice st api)) →
  r ∈ zone api ∨
  ∃ name ip, name ∈ mesh_names st ∧ (name ∉ managed_names (listed api)) ∧
             mesh_addrs st !! name = Some ip ∧
             Type_ r = "A" ∧ Name r = (name ++ CloudflareDomainSuffix)%string ∧
             Content r = ip ∧ Comment r = CloudflareSyncDNSComment ∧ TTL r = 1%Z.
Proof. apply sync_zone_old_or_new. Qed.

End Frame.

Lemma sync_keeps_unmanaged_witness :
  www_record ∈ zone (after (sync elements st_ab api_mixed)).
Proof.
  apply (sync_keeps_unmanaged elements elements_reflexive st_ab api_mixed www_record).
  - refine (bool_decide_unpack _ _). vm_compute. exact I.
  - apply elem_of_cons. by left.
  - intros [H|H]; discriminate H.
Defined.

Lemma sync_no_update_in_place_witness :
  managed_record "id-b" "b.int.example.com" ∈ zone (after (sync elements st_ab api_mixed)) ∧
  ∀ p, CallCreate p ∈ trace (sync elements st_ab api_mixed) →
       Name p ≠ (getName (Name (managed_record "id-b" "b.int.example.com"))
                 ++ CloudflareDomainSuffix)%string.
Proof.
  apply (sync_no_update_in_place elements elements_reflexive st_ab api_mixed
           (managed_record "id-b" "b.int.example.com")).
  - refine (bool_decide_unpack _ _). vm_compute. exact I.
  - reflexivity.
  - refine (bool_decide_unpack _ _). vm_compute. exact I.
  - refine (bool_decide_unpack _ _). vm_compute. exact I.
Defined.

Lemma sync_zone_origin_witness :
  created_a ∈ zone api_mixed ∨
  ∃ name ip, name ∈ mesh_names st_ab ∧ (name ∉ managed_names (listed api_mixed)) ∧
             mesh_addrs st_ab !! name = Some ip ∧
             Type_ created_a = "A" ∧
             Name created_a = (name ++ CloudflareDomainSuffix)%string ∧
             Content created_a = ip ∧
             Comment created_a = CloudflareSyncDNSComment ∧
             TTL created_a = 1%Z.
Proof.
  apply (sync_zone_origin elements elements_reflexive st_ab api_mixed
           created_a).
  refine (bool_decide_unpack _ _). vm_compute. exact I.
Defined.

(** ** The scheduler loop *)

Lemma main_Tick (ToSlice : gset string → list string) (st : Status)
    (events : list Event) (api : API) :
  main ToSlice st (Tick :: events) api
  = mkRun (value (main ToSlice st events (after (sync ToSlice st api))))
          (after (main ToSlice st events (after (sync ToSlice st api))))
          (trace (sync ToSlice st api)
           ++ trace (main ToSlice st events (after (sync ToSlice st api)))).
Proof. reflexivity. Qed.

(** X16. Once [select] has taken the cancellation, [main] returns: the
    events after it start no cycle and cause no call. *)
Theorem main_stops_at_cancellation (ToSlice : gset string → list string)
    (st : Status) (before later : list Event) (api : API) :
  main ToSlice st (before ++ Cancelled :: later) api
  = main ToSlice st (before ++ [Cancelled]) api ∧
  value (main ToSlice st (before ++ Cancelled :: later) api) = Stopped.
Proof.
  revert api. induction before as [|e before IH]; intros api; [done|].
  destruct e; [|done].
  rewrite <- !app_comm_cons, !main_Tick.
  destruct (IH (after (sync ToSlice st api))) as [-> ->]. done.
Qed.



Section Scheduler.

Variable ToSlice : gset string → list string.
Hypothesis ToSlice_perm : ∀ X : gset string, ToSlice X ≡ₚ elements X.



Lemma main_idle (st : Status) (api : API) (k : nat) :
  list_fails api = false →
  mesh_names st = managed_names (listed api) →
  main ToSlice st (replicate k Tick) api
  = mkRun Waiting api (replicate k (CallList list_params)).
Proof.
  intros Hl Heq.
  assert (ReconciliationSet st api = ∅) as He.
  { unfold ReconciliationSet, SymmetricDifference. rewrite Heq. set_solver. }
  induction k as [|k IH]; [done|].
  cbn [replicate]. rewrite main_Tick.
  rewrite (sync_empty_difference ToSlice ToSlice_perm) by done.
  cbn [value after trace]. by rewrite IH.
Qed.

(** X18. With a zone in sync with the mesh (equal name sets) and a
    listing call that succeeds, any number of ticks leaves the provider
    as it is and makes one listing call per tick, nothing else. *)
Theorem main_steady_state (st : Status) (api : API) (k : nat) :
  list_fails api = false →
  mesh_names st = managed_names (listed api) →
  main ToSlice st (replicate k Tick) api
  = mkRun Waiting api (replicate k (CallList list_params)).
Proof. apply main_idle. Qed.

(** X19. Under the conditions of a first cycle that converges (every
    mesh name with an address; distinct, nonempty identifiers; distinct
    normalized names of the managed records; one page; no failing call),
    the ticks after the first make one listing call each and nothing
    else. *)
Theorem main_converges_then_idles (st : Status) (api : API) (k : nat) :
  list_fails api = false →
  (∀ p, create_fails api p = false) →
  (∀ recordID, delete_fails api recordID = false) →
  dom (mesh_addrs st) = mesh_names st →
  NoDup (ID <$> zone api) →
  "" ∉ ID <$> zone api →
  NoDup ((λ r, getName (Name r)) <$> filter annotated (zone api)) →
  (List.length (filter annotated (zone api)) + size (mesh_names st) ≤ 1000)%nat →
  trace (main ToSlice st (Tick :: replicate k Tick) api)
  = trace (sync ToSlice st api) ++ replicate k (CallList list_params) ∧
  after (main ToSlice st (Tick :: replicate k Tick) api) = after (sync ToSlice st api).
Proof.
  intros H1 H2 H3 H4 H5 H6 H7 H8.
  destruct (managed_names_after_sync ToSlice ToSlice_perm st api H1 H2 H3 H4 H5 H6 H7 H8)
    as [Hl Hnames].
  rewrite main_Tick. cbn [trace after].
  by rewrite main_idle.
Qed.

End Scheduler.


Lemma main_steady_state_witness :
  main elements st_ab (replicate 3 Tick) api_ab
  = mkRun Waiting api_ab (replicate 3 (CallList list_params)).
Proof.
  apply (main_steady_state elements elements_reflexive st_ab api_ab 3).
  - reflexivity.
  - vm_compute. reflexivity.
Defined.

Lemma main_converges_then_idles_witness :
  trace (main elements st_ab (Tick :: replicate 2 Tick) api_bc)
  = trace (sync elements st_ab api_bc) ++ replicate 2 (CallList list_params) ∧
  after (main elements st_ab (Tick :: replicate 2 Tick) api_bc)
  = after (sync elements st_ab api_bc).
Proof.
  apply (main_converges_then_idles elements elements_reflexive st_ab api_bc 2).
  - reflexivity.
  - intros p. reflexivity.
  - intros recordID. reflexivity.
  - vm_compute. reflexivity.
  - refine (bool_decide_unpack _ _). vm_compute. exact I.
  - refine (bool_decide_unpack _ _). vm_compute. exact I.
  - refine (bool_decide_unpack _ _). vm_compute. exact I.
  - apply Nat.leb_le. vm_compute. reflexivity.
Defined.

(** ** One cycle that converges *)

(** X20. Under the conditions of a cycle that converges (every mesh name
    with an address; distinct, nonempty identifiers; distinct normalized
    names of the managed records; one page; no failing call), after the
    cycle the managed names of the zone are exactly the mesh names, and
    every mesh name that had no managed record has a managed A record
    named after it that holds the address [tsMap] has for it. *)
Theorem sync_converges_in_one_cycle (ToSlice : gset string → list string)
    (st : Status) (api : API) :
  (∀ X : gset string, ToSlice X ≡ₚ elements X) →
  list_fails api = false →
  (∀ p, create_fails api p = false) →
  (∀ recordID, delete_fails api recordID = false) →
  dom (mesh_addrs st) = mesh_names st →
  NoDup (ID <$> zone api) →
  "" ∉ ID <$> zone api →
  NoDup ((λ r, getName (Name r)) <$> filter annotated (zone api)) →
  (List.length (filter annotated (zone api)) + size (mesh_names st) ≤ 1000)%nat →
  managed_names (listed (after (sync ToSlice st api))) = mesh_names st ∧
  ∀ n ip, n ∈ mesh_names st → n ∉ managed_names (listed api) →
          mesh_addrs st !! n = Some ip →
          ∃ r, r ∈ zone (after (sync ToSlice st api)) ∧ annotated r ∧
               Type_ r = "A" ∧ Name r = (n ++ CloudflareDomainSuffix)%string ∧
               Content r = ip.
Proof.
  intros Hperm H1 H2 H3 H4 H5 H6 H7 H8.
  destruct (managed_names_after_sync ToSlice Hperm st api H1 H2 H3 H4 H5 H6 H7 H8)
    as [Hl Hnames].
  split; [done|]. intros n ip Hts Hcf Hip.
  assert (n ∈ managed_names (listed (after (sync ToSlice st api)))) as Hin
    by (by rewrite Hnames).
  apply elem_of_managed_names in Hin as (Hne & r & Hr & Hname).
  apply elem_of_listed in Hr as [Hr Han].
  exists r. split; [done|]. split; [done|].
  destruct (sync_zone_old_or_new ToSlice Hperm st api r Hr)
    as [Hold|(n' & ip' & Hts' & _ & Hip' & Htype & Hrn & Hcontent & _)].
  - exfalso. apply Hcf. apply elem_of_managed_names. split; [done|].
    exists r. split; [|done]. rewrite listed_all by lia.
    by apply list_elem_of_filter.
  - assert (n' = n) as ->.
    { destruct (mesh_name_canonical st n' Hts') as [_ Hcanon].
      by rewrite <- Hname, Hrn. }
    split; [done|]. split; [done|]. congruence.
Qed.

Lemma sync_converges_in_one_cycle_witness :
  managed_names (listed (after (sync elements st_ab api_bc))) = mesh_names st_ab ∧
  ∀ n ip, n ∈ mesh_names st_ab → n ∉ managed_names (listed api_bc) →
          mesh_addrs st_ab !! n = Some ip →
          ∃ r, r ∈ zone (after (sync elements st_ab api_bc)) ∧ annotated r ∧
               Type_ r = "A" ∧ Name r = (n ++ CloudflareDomainSuffix)%string ∧
               Content r = ip.
Proof.
  apply (sync_converges_in_one_cycle elements st_ab api_bc).
  - exact elements_reflexive.
  - reflexivity.
  - intros p. reflexivity.
  - intros recordID. reflexivity.
  - vm_compute. reflexivity.
  - refine (bool_decide_unpack _ _). vm_compute. exact I.
  - refine (bool_decide_unpack _ _). vm_compute. exact I.
  - refine (bool_decide_unpack _ _). vm_compute. exact I.
  - apply Nat.leb_le. vm_compute. reflexivity.
Defined.

(** ** What [getName] ignores *)

Lemma ToLower_first_segment_idemp (s : string) :
  ToLower (first_segment (ToLower s)) = ToLower (first_segment s).
Proof. by rewrite first_segment_ToLower, ToLower_idemp. Qed.

(** X21. [getName] ignores the case of its input and everything from
    the first dot on: hosts that differ only in case or in their domain
    get the same key. *)
Theorem getName_ignores_case_and_domain (s t : string) :
  getName (ToLower s) = getName s ∧
  getName (s ++ String "." t) = getName s.
Proof.
  rewrite !getName_spec. unfold normalize_spec. split.
  - apply ToLower_first_segment_idemp.
  - by rewrite first_segment_app_dot.
Qed.

(** ** A failed create is tried again by the next cycle *)

Lemma sync_name_faults (ts cf : gset string) (tsMap cfMap : gmap string string)
    (name : string) (api : API) :
  list_fails (after (sync_name ts cf tsMap cfMap name api)) = list_fails api ∧
  create_fails (after (sync_name ts cf tsMap cfMap name api)) = create_fails api ∧
  delete_fails (after (sync_name ts cf tsMap cfMap name api)) = delete_fails api.
Proof.
  unfold sync_name, create_branch, delete_branch, bind,
    Cloudflare.CreateDNSRecord, Cloudflare.DeleteDNSRecord.
  repeat (case_decide || case_match); simpl in *; try done;
    repeat (case_decide || case_match); simpl in *; done.
Qed.

Lemma for_range_faults (ts cf : gset string) (tsMap cfMap : gmap string string)
    (l : list string) (api : API) :
  list_fails (after (for_range l (sync_name ts cf tsMap cfMap) api)) = list_fails api ∧
  create_fails (after (for_range l (sync_name ts cf tsMap cfMap) api)) = create_fails api ∧
  delete_fails (after (for_range l (sync_name ts cf tsMap cfMap) api)) = delete_fails api.
Proof.
  revert api. induction l as [|name l IH]; intros api; [done|].
  cbn [for_range]. rewrite after_bind.
  destruct (IH (after (sync_name ts cf tsMap cfMap name api))) as (-> & -> & ->).
  apply sync_name_faults.
Qed.

Lemma sync_faults (ToSlice : gset string → list string) (st : Status) (api : API) :
  list_fails (after (sync ToSlice st api)) = list_fails api ∧
  create_fails (after (sync ToSlice st api)) = create_fails api ∧
  delete_fails (after (sync ToSlice st api)) = delete_fails api.
Proof.
  destruct (list_fails api) eqn:Hl.
  - rewrite sync_after_error by done. by rewrite Hl.
  - rewrite (sync_after ToSlice) by done. rewrite <- Hl. apply for_range_faults.
Qed.

(** A record the loop adds comes from a create call that did not
    fail. *)
Lemma for_range_new_record (ts cf : gset string) (tsMap cfMap : gmap string string)
    (l : list string) (api : API) (r : DNSRecord) :
  Forall (λ name, ¬ (name ∈ ts ∧ name ∈ cf)) l →
  r ∈ zone (after (for_range l (sync_name ts cf tsMap cfMap) api)) →
  r ∈ zone api ∨
  ∃ name ip, name ∈ ts ∧ tsMap !! name = Some ip ∧
             create_fails api (new_record name ip) = false ∧
             Name r = (name ++ CloudflareDomainSuffix)%string.
Proof.
  intros Hl. revert api. induction Hl as [|name l Hone Hl IH]; intros api Hr; [by left|].
  cbn [for_range] in Hr. rewrite after_bind in Hr. apply IH in Hr.
  destruct (sync_name_faults ts cf tsMap cfMap name api) as (_ & Hsame & _).
  destruct Hr as [Hr|(n & ip & Hn & Hip & Hok & Hname)].
  2: { right. exists n, ip. by rewrite <- Hsame. }
  rewrite sync_name_after in Hr by done.
  destruct (decide (name ∈ ts)) as [Hts|Hts].
  - destruct (tsMap !! name) as [ip|] eqn:Hip; [|by left].
    unfold Cloudflare.CreateDNSRecord in Hr.
    destruct (create_fails api (new_record name ip)) eqn:Hc; [by left|].
    cbn [after set_zone zone] in Hr.
    apply elem_of_app in Hr as [Hr| ->%list_elem_of_singleton]; [by left|].
    right. exists name, ip. done.
  - destruct (decide (name ∈ cf)) as [Hcf|Hcf]; [|by left].
    destruct (cfMap !! name) as [recordID|]; [|by left].
    destruct (DeleteDNSRecord_zone recordID api) as [Hz|Hz]; rewrite Hz in Hr; [by left|].
    apply list_elem_of_filter in Hr. left. tauto.
Qed.

(** X22. A mesh name whose create call fails is still without managed
    record after the cycle, so the next cycle finds it in the
    reconciliation set and issues the same create call again (the
    managed records of the zone fitting the page listed). *)
Theorem sync_failed_create_retried (ToSlice : gset string → list string)
    (st : Status) (api : API) (n ip : string) :
  (∀ X : gset string, ToSlice X ≡ₚ elements X) →
  list_fails api = false →
  (List.length (filter annotated (zone api)) ≤ 1000)%nat →
  n ∈ mesh_names st → n ∉ managed_names (listed api) →
  mesh_addrs st !! n = Some ip →
  create_fails api (new_record n ip) = true →
  n ∈ ReconciliationSet st (after (sync ToSlice st api)) ∧
  CallCreate (new_record n ip)
    ∈ trace (sync ToSlice st (after (sync ToSlice st api))).
Proof.
  intros Hperm Hl Hpage Hts Hcf Hip Hfail.
  destruct (sync_faults ToSlice st api) as (Hl' & _ & _). rewrite Hl in Hl'.
  assert (n ∉ managed_names (listed (after (sync ToSlice st api)))) as Hstill.
  { intros (Hne & r & Hr & Hname)%elem_of_managed_names.
    apply elem_of_listed in Hr as [Hr Han].
    rewrite (sync_after ToSlice) in Hr by done.
    apply for_range_new_record in Hr; [|by apply ToSlice_one_side].
    destruct Hr as [Hold|(n' & ip' & Hts' & Hip' & Hok & Hrn)].
    - apply Hcf. apply elem_of_managed_names. split; [done|].
      exists r. split; [|done]. rewrite listed_all by done.
      by apply list_elem_of_filter.
    - assert (n' = n) as ->.
      { destruct (mesh_name_canonical st n' Hts') as [_ Hcanon].
        by rewrite <- Hname, Hrn. }
      congruence. }
  assert (n ∈ ReconciliationSet st (after (sync ToSlice st api))) as Hdiff.
  { unfold ReconciliationSet, SymmetricDifference. set_solver. }
  split; [done|].
  apply (create_in_trace ToSlice Hperm); [done|]. eauto 10.
Qed.

Lemma sync_failed_create_retried_witness :
  "a" ∈ ReconciliationSet st_ab (after (sync elements st_ab api_create_down)) ∧
  CallCreate (new_record "a" "100.64.0.1")
    ∈ trace (sync elements st_ab (after (sync elements st_ab api_create_down))).
Proof.
  apply (sync_failed_create_retried elements st_ab api_create_down "a" "100.64.0.1").
  - exact elements_reflexive.
  - reflexivity.
  - apply Nat.leb_le. vm_compute. reflexivity.
  - vm_compute. reflexivity.
  - vm_compute. discriminate.
  - vm_compute. reflexivity.
  - reflexivity.
Defined.
